(** * Delayed event scheduling: the Redis-backed scheduler and the render dispatcher

    A shallow embedding of
    - [app/models/schemas.py]      (EventStatus, RenderEvent, ScheduleEventRequest),
    - [app/services/scheduler.py]  (SchedulerService),
    - [app/api/v1/routers/scheduler.py] (the HTTP handlers in front of it),
    - [app/services/video_render.py] (the loop body of
      VideoRenderService._process_due_events),
    followed by the properties of the event engine that the code does, or
    does not, satisfy.

    Redis is modelled by the documented semantics of the commands the code
    issues: hashes are finite maps from field to value, the sorted set is a
    finite map from member to score read back in (score, member) order.
    With [decode_responses=True] every stored value is a string.  Between
    the service and Redis stands the client library (redis-py, at least
    5.2.0 by [setup.py]): its [hset] takes Python values, binds them to its
    parameters and refuses what it cannot encode before any command is
    sent. *)

From stdpp Require Import gmap strings list sorting fin_maps pretty.
From Stdlib Require Import ZArith.

Local Open Scope Z_scope.

(* ===================================================================== *)
(** ** Time *)
(* ===================================================================== *)

(** A naive [datetime] is a point of a linear time line with microsecond
    resolution; it is represented by its number of microseconds since
    1970-01-01T00:00:00.  Comparison of naive datetimes is comparison of
    these integers. *)
Abbreviation datetime := Z (only parsing).

Fixpoint zeros (n : nat) : string :=
  match n with
  | O => ""
  | S k => "0" +:+ zeros k
  end.

(** ["%0<width>d"] for a non-negative number. *)
Definition zfill (width : nat) (n : Z) : string :=
  let s := pretty (Z.to_N n) in
  zeros (width - String.length s) +:+ s.

(** Days since the epoch to (year, month, day) of the proleptic Gregorian
    calendar. *)
Definition civil_from_days (days : Z) : Z * Z * Z :=
  let z := days + 719468 in
  let era := z / 146097 in
  let doe := z - era * 146097 in
  let yoe := (doe - doe / 1460 + doe / 36524 - doe / 146096) / 365 in
  let doy := doe - (365 * yoe + yoe / 4 - yoe / 100) in
  let mp := (5 * doy + 2) / 153 in
  let d := doy - (153 * mp + 2) / 5 + 1 in
  let m := if mp <? 10 then mp + 3 else mp - 9 in
  let y := yoe + era * 400 in
  (if m <=? 2 then y + 1 else y, m, d).

(** [datetime.isoformat()]: [YYYY-MM-DDTHH:MM:SS], followed by [.ffffff]
    when the microsecond part is not zero. *)
Definition isoformat (t : datetime) : string :=
  let us := t mod 1000000 in
  let secs := t / 1000000 in
  let sod := secs mod 86400 in
  let '(y, m, d) := civil_from_days (secs / 86400) in
  zfill 4 y +:+ "-" +:+ zfill 2 m +:+ "-" +:+ zfill 2 d +:+ "T" +:+
  zfill 2 (sod / 3600) +:+ ":" +:+ zfill 2 (sod mod 3600 / 60) +:+ ":" +:+
  zfill 2 (sod mod 60) +:+
  (if us =? 0 then "" else "." +:+ zfill 6 us).

(** The [scheduled_time] of a request body is parsed by pydantic into a
    [datetime] that is naive when the text carries no offset, and aware
    when it ends in [Z] or in [+HH:MM] / [-HH:MM].  An aware value is kept
    as its wall-clock reading and its offset from UTC in minutes. *)
Inductive request_datetime : Set :=
  | Naive (t : datetime)
  | Aware (t : datetime) (utcoffset : Z).

(** [isoformat()] of an aware value ends in the offset. *)
Definition isoformat_offset (utcoffset : Z) : string :=
  (if utcoffset <? 0 then "-" else "+") +:+
  zfill 2 (Z.abs utcoffset / 60) +:+ ":" +:+ zfill 2 (Z.abs utcoffset mod 60).

Definition isoformat_request (v : request_datetime) : string :=
  match v with
  | Naive t => isoformat t
  | Aware t utcoffset => isoformat t +:+ isoformat_offset utcoffset
  end.

(** [datetime.timestamp()] in microseconds, on a machine whose local time
    zone is UTC: a naive value is read as local time, an aware one is moved
    by its offset. *)
Definition timestamp_utc (v : request_datetime) : Z :=
  match v with
  | Naive t => t
  | Aware t utcoffset => t - utcoffset * 60000000
  end.

(* ===================================================================== *)
(** ** Exceptions *)
(* ===================================================================== *)

(** The exceptions the code meets.  [HTTP500 cause] is the
    [HTTPException(status_code=500, detail=str(e))] a handler raises for an
    exception [e] it has caught; the exception stands for its text. *)
Inductive error : Set :=
  | ValueError (msg : string)  (* raised by a pydantic validator *)
  | TypeError                  (* a naive datetime compared with an aware one *)
  | AttributeError             (* an attribute the object does not have *)
  | DataError                  (* redis.exceptions.DataError *)
  | ResponseError              (* an error reply of the Redis server *)
  | HTTP404 (detail : string)
  | HTTP500 (cause : error).

(** A call that returns a value or raises. *)
Global Instance error_ret : MRet (sum error) := λ A, inr.

Global Instance error_bind : MBind (sum error) := λ A B k r,
  match r with
  | inl e => inl e
  | inr a => k a
  end.

(* ===================================================================== *)
(** ** app/models/schemas.py *)
(* ===================================================================== *)

(** [class EventStatus(str, Enum)] *)
Inductive EventStatus : Set :=
  | PENDING
  | SCHEDULED
  | PROCESSING
  | COMPLETED
  | FAILED.

Global Instance EventStatus_eq_dec : EqDecision EventStatus.
Proof. solve_decision. Defined.

(** [EventStatus.<member>.value] *)
Definition status_value (s : EventStatus) : string :=
  match s with
  | PENDING => "pending"
  | SCHEDULED => "scheduled"
  | PROCESSING => "processing"
  | COMPLETED => "completed"
  | FAILED => "failed"
  end.

(** The Python values the scheduler handles: [None], strings, integers and
    dictionaries with string keys (the [Dict[str, Any]] of a request
    body). *)
#[local] Set Warnings "-register-all".
Inductive pyvalue : Set :=
  | PyNone
  | PyStr (s : string)
  | PyInt (n : Z)
  | PyDict (entries : list (string * pyvalue)).
#[local] Set Warnings "register-all".

(** [v is None] *)
Definition is_None (v : pyvalue) : bool :=
  match v with
  | PyNone => true
  | _ => false
  end.

(** [class ScheduleEventRequest(BaseModel)].  [content] and [metadata] are
    declared [Dict[str, Any]]: pydantic accepts a dictionary for them and
    nothing else, so each is given by its entries. *)
Record ScheduleEventRequest : Set := mkRequest {
  req_event_type : string;
  req_content : list (string * pyvalue);
  req_scheduled_time : request_datetime;
  req_metadata : list (string * pyvalue)
}.

(** [class ScheduleEventResponse(BaseModel)] *)
Record ScheduleEventResponse : Set := mkResponse {
  resp_event_id : string;
  resp_status : EventStatus;
  resp_scheduled_time : request_datetime
}.

(** [ScheduleEventRequest.validate_scheduled_time]; [now] is the reading of
    [datetime.now()] inside the validator, a naive datetime.  Python orders
    two naive datetimes, and refuses to order a naive and an aware one with
    a [TypeError]. *)
Definition validate_scheduled_time (now : datetime) (v : request_datetime)
    : error + request_datetime :=
  match v with
  | Aware _ _ => inl TypeError
  | Naive t =>
      if bool_decide (t <= now)
      then inl (ValueError "A data agendada deve ser futura")
      else inr v
  end.

(** Construction of a [ScheduleEventRequest] from the fields of the request
    body: pydantic runs the validator on [scheduled_time] and builds the
    object only when it returns.  A [ValueError] of the validator becomes a
    validation error of the request; pydantic 2 lets any other exception
    through. *)
Definition parse_ScheduleEventRequest (now : datetime)
    (event_type : string) (content : list (string * pyvalue))
    (scheduled_time : request_datetime)
    (metadata : list (string * pyvalue)) : error + ScheduleEventRequest :=
  v ← validate_scheduled_time now scheduled_time;
  mret (mkRequest event_type content v metadata).

(* ===================================================================== *)
(** ** The Redis commands used by the scheduler *)
(* ===================================================================== *)

(** The part of the Redis key space the scheduler touches: the keys that
    hold a hash, and the one sorted set (stored at ["scheduler:queue"]),
    as a map from member to score. *)
Record redis : Type := mkRedis {
  hashes : gmap string (gmap string string);
  queue : gmap string Z
}.

Definition redis_empty : redis := mkRedis ∅ ∅.

(** [HSET key field value [field value ...]]: later pairs win; the hash is
    created when the key is missing. *)
Definition hset (key : string) (pairs : list (string * string))
    (db : redis) : redis :=
  let old := default ∅ (hashes db !! key) in
  let new := foldl (λ h fv, <[fv.1 := fv.2]> h) old pairs in
  mkRedis (<[key := new]> (hashes db)) (queue db).

(** [HGETALL key]: the empty dictionary when the key is missing. *)
Definition hgetall (key : string) (db : redis) : gmap string string :=
  default ∅ (hashes db !! key).

(** [EXISTS key], asked for job keys only. *)
Definition exists_ (key : string) (db : redis) : bool :=
  bool_decide (is_Some (hashes db !! key)).

(** [DEL key], issued for job keys only. *)
Definition delete_ (key : string) (db : redis) : redis :=
  mkRedis (delete key (hashes db)) (queue db).

(** [ZADD queue member score]: a member already present gets the new score. *)
Definition zadd (member : string) (score : Z) (db : redis) : redis :=
  mkRedis (hashes db) (<[member := score]> (queue db)).

(** [ZREM queue member [member ...]]: members that are absent are ignored. *)
Definition zrem (members : list string) (db : redis) : redis :=
  mkRedis (hashes db) (foldr delete (queue db) members).

(** The order of a sorted set: by score, and among equal scores by the
    lexicographic order of the members. *)
Definition zset_leb (a b : string * Z) : bool :=
  (a.2 <? b.2) || ((a.2 =? b.2) && String.leb a.1 b.1).

Definition zset_le (a b : string * Z) : Prop := zset_leb a b = true.

Global Instance zset_le_dec : RelDecision zset_le.
Proof. intros a b. unfold zset_le. apply _. Defined.

(** The entries of the sorted set, in its order. *)
Definition zset_entries (q : gmap string Z) : list (string * Z) :=
  merge_sort zset_le (map_to_list q).

(** [LIMIT offset count]: a negative [count] returns everything from the
    offset on. *)
Definition limit_slice {A : Type} (offset count : Z) (l : list A) : list A :=
  if offset <? 0 then []
  else
    let rest := drop (Z.to_nat offset) l in
    if count <? 0 then rest else take (Z.to_nat count) rest.

(** [ZRANGEBYSCORE queue min max LIMIT start num]: the members whose score
    lies in [[min, max]], in the order of the sorted set. *)
Definition zrangebyscore (min max start num : Z) (db : redis) : list string :=
  limit_slice start num
    ((filter (λ e : string * Z, min <= e.2 <= max)
        (zset_entries (queue db))).*1).

(* ===================================================================== *)
(** ** The Redis client (redis-py) *)
(* ===================================================================== *)

(** [bool(v)] *)
Definition truthy (v : pyvalue) : bool :=
  match v with
  | PyNone => false
  | PyStr s => negb (String.eqb s "")
  | PyInt n => negb (n =? 0)
  | PyDict entries =>
      match entries with
      | [] => false
      | _ => true
      end
  end.

(** What [list.extend(v)] appends: the characters of a string, the keys of
    a dictionary; [None] and an integer are not iterable. *)
Definition iterate (v : pyvalue) : error + list pyvalue :=
  match v with
  | PyStr s =>
      inr ((λ c, PyStr (String c "")) <$> Strings.String.list_ascii_of_string s)
  | PyDict entries => inr (PyStr <$> entries.*1)
  | PyNone | PyInt _ => inl TypeError
  end.

(** [v.items()]: only a dictionary has the method. *)
Definition items (v : pyvalue) : error + list (string * pyvalue) :=
  match v with
  | PyDict entries => inr entries
  | _ => inl AttributeError
  end.

(** [Encoder.encode]: a string goes out as it is and an integer as its
    digits; [None] and a dictionary are refused with [DataError]. *)
Definition encode (v : pyvalue) : error + string :=
  match v with
  | PyStr s => inr s
  | PyInt n => inr (pretty n)
  | PyNone | PyDict _ => inl DataError
  end.

(** The arguments of a command are encoded one after the other when the
    command is packed; nothing is sent when one of them is refused. *)
Fixpoint encode_all (pieces : list pyvalue) : error + list string :=
  match pieces with
  | [] => inr []
  | v :: rest =>
      s ← encode v;
      ss ← encode_all rest;
      mret (s :: ss)
  end.

(** The field-value pairs of the arguments of [HSET]; the server rejects an
    odd number of them. *)
Fixpoint field_value_pairs (args : list string)
    : error + list (string * string) :=
  match args with
  | [] => inr []
  | [_] => inl ResponseError
  | field :: value :: rest =>
      pairs ← field_value_pairs rest;
      mret ((field, value) :: pairs)
  end.

(** [Redis.hset(name, key=None, value=None, mapping=None, items=None)]:
<<
    if key is None and not mapping and not items:
        raise DataError("'hset' with no key value pairs")
    pieces = []
    if items:
        pieces.extend(items)
    if key is not None:
        pieces.extend((key, value))
    if mapping:
        for pair in mapping.items():
            pieces.extend(pair)
    return self.execute_command("HSET", name, *pieces)
>>
    Redis is left as it was when the call raises. *)
Definition client_hset (name : string) (key value mapping items_ : pyvalue)
    (db : redis) : error + redis :=
  if is_None key && negb (truthy mapping) && negb (truthy items_)
  then inl DataError
  else
    from_items ← (if truthy items_ then iterate items_ else inr []);
    let from_key :=
      if is_None key then [] else [key; value] in
    from_mapping ←
      (if truthy mapping
       then entries ← items mapping;
            mret (concat ((λ pair : string * pyvalue, [PyStr pair.1; pair.2])
                            <$> entries))
       else inr []);
    args ← encode_all (from_items ++ from_key ++ from_mapping);
    pairs ← field_value_pairs args;
    mret (hset name pairs db).

(* ===================================================================== *)
(** ** app/services/scheduler.py *)
(* ===================================================================== *)

Module SchedulerService.

Definition job_prefix : string := "scheduler:job:".
Definition queue_key : string := "scheduler:queue".

Definition job_key (event_id : string) : string := job_prefix +:+ event_id.

(** [schedule_event].  [event_id] is the value of [str(uuid.uuid4())],
    [created] and [updated] the two readings of [datetime.utcnow()], and
    [timestamp] the method [datetime.timestamp()], whose float is taken at
    the resolution of the scores.  [content] and [metadata] go into
    [event_data] as the dictionaries they are.  An exception of [hset]
    leaves the function before [zadd]. *)
Definition schedule_event (timestamp : request_datetime → Z)
    (event_id : string) (created updated : datetime)
    (request : ScheduleEventRequest) (db : redis)
    : redis * (error + ScheduleEventResponse) :=
  let event_data :=
    PyDict
      [ ("event_id", PyStr event_id);
        ("event_type", PyStr (req_event_type request));
        ("content", PyDict (req_content request));
        ("scheduled_time",
         PyStr (isoformat_request (req_scheduled_time request)));
        ("status", PyStr (status_value SCHEDULED));
        ("metadata", PyDict (req_metadata request));
        ("created_at", PyStr (isoformat created));
        ("updated_at", PyStr (isoformat updated)) ] in
  match client_hset (job_key event_id) PyNone PyNone event_data PyNone db with
  | inl e => (db, inl e)
  | inr db1 =>
      let db2 := zadd event_id (timestamp (req_scheduled_time request)) db1 in
      (db2, inr (mkResponse event_id SCHEDULED (req_scheduled_time request)))
  end.

(** [get_event]: [None] when the dictionary read back is empty. *)
Definition get_event (event_id : string) (db : redis)
    : option (gmap string string) :=
  let event_data := hgetall (job_key event_id) db in
  if decide (event_data = ∅) then None else Some event_data.

(** [update_event_status]; [utcnow] is the reading of [datetime.utcnow()].
    The five positional arguments of [hset] are bound in the order of its
    parameters: [name], [key], [value], [mapping], [items]. *)
Definition update_event_status (event_id : string) (status : EventStatus)
    (utcnow : datetime) (db : redis) : redis * (error + bool) :=
  if exists_ (job_key event_id) db
  then
    match client_hset (job_key event_id)
            (PyStr "status") (PyStr (status_value status))
            (PyStr "updated_at") (PyStr (isoformat utcnow)) db with
    | inl e => (db, inl e)
    | inr db1 => (db1, inr true)
    end
  else (db, inr false).

(** The loop of [get_pending_events] that reads the bodies: an identifier
    whose dictionary is empty contributes nothing. *)
Fixpoint fetch_events (event_ids : list string) (db : redis)
    : list (gmap string string) :=
  match event_ids with
  | [] => []
  | event_id :: rest =>
      let event_data := hgetall (job_key event_id) db in
      if decide (event_data = ∅) then fetch_events rest db
      else event_data :: fetch_events rest db
  end.

(** [get_pending_events]; [now] is [datetime.utcnow().timestamp()]. *)
Definition get_pending_events (limit : Z) (now : Z) (db : redis)
    : list (gmap string string) :=
  let event_ids := zrangebyscore 0 now 0 limit db in
  match event_ids with
  | [] => []
  | _ => fetch_events event_ids db
  end.

(** [remove_completed_events]: one [ZREM] for the whole list when it is not
    empty, then one [DEL] for each identifier. *)
Definition remove_completed_events (event_ids : list string) (db : redis)
    : redis :=
  let db1 := match event_ids with
             | [] => db
             | _ => zrem event_ids db
             end in
  foldl (λ d event_id, delete_ (job_key event_id) d) db1 event_ids.

End SchedulerService.

(* ===================================================================== *)
(** ** app/api/v1/routers/scheduler.py *)
(* ===================================================================== *)

Module Router.

(** [POST /events].  The body is parsed into a [ScheduleEventRequest]
    first; the handler runs only when the object could be built, and turns
    every exception of the service into a 500. *)
Definition schedule_event (timestamp : request_datetime → Z) (now : datetime)
    (event_id : string) (created updated : datetime)
    (event_type : string) (content : list (string * pyvalue))
    (scheduled_time : request_datetime)
    (metadata : list (string * pyvalue)) (db : redis)
    : redis * (error + ScheduleEventResponse) :=
  match parse_ScheduleEventRequest now event_type content scheduled_time
          metadata with
  | inl e => (db, inl e)
  | inr request =>
      match SchedulerService.schedule_event timestamp event_id created updated
              request db with
      | (db', inl e) => (db', inl (HTTP500 e))
      | (db', inr response) => (db', inr response)
      end
  end.

(** [GET /events/{event_id}] *)
Definition get_event (event_id : string) (db : redis)
    : error + gmap string string :=
  match SchedulerService.get_event event_id db with
  | None => inl (HTTP404 "Event not found")
  | Some event => inr event
  end.

(** [PUT /events/{event_id}/status/{status}].  The handler has no [try]:
    an exception of the service leaves it as it is. *)
Definition update_event_status (event_id : string) (status : EventStatus)
    (utcnow : datetime) (db : redis) : redis * (error + string) :=
  match SchedulerService.update_event_status event_id status utcnow db with
  | (db', inl e) => (db', inl e)
  | (db', inr success) =>
      if success then (db', inr "Event status updated successfully")
      else (db', inl (HTTP404 "Event not found"))
  end.

(** [DELETE /events/cleanup] *)
Definition cleanup_completed_events (event_ids : list string) (db : redis)
    : redis * string :=
  (SchedulerService.remove_completed_events event_ids db,
   "Events cleaned up successfully").

End Router.

(** The calls of the scheduler API that can write to Redis. *)
Inductive api_call : Type :=
  | PostEvent (now : datetime) (event_id : string) (created updated : datetime)
      (event_type : string) (content : list (string * pyvalue))
      (scheduled_time : request_datetime)
      (metadata : list (string * pyvalue))
  | PutStatus (event_id : string) (status : EventStatus) (utcnow : datetime)
  | DeleteCleanup (event_ids : list string).

Definition run_call (timestamp : request_datetime → Z) (c : api_call)
    (db : redis) : redis :=
  match c with
  | PostEvent now event_id created updated event_type content scheduled_time
      metadata =>
      (Router.schedule_event timestamp now event_id created updated event_type
         content scheduled_time metadata db).1
  | PutStatus event_id status utcnow =>
      (Router.update_event_status event_id status utcnow db).1
  | DeleteCleanup event_ids =>
      (Router.cleanup_completed_events event_ids db).1
  end.

(** The states the scheduler API can bring an empty Redis into. *)
Inductive reachable (timestamp : request_datetime → Z) : redis → Prop :=
  | reachable_empty : reachable timestamp redis_empty
  | reachable_call c db :
      reachable timestamp db → reachable timestamp (run_call timestamp c db).

(** The value of the [status] field of a stored event. *)
Definition stored_status (event_id : string) (db : redis) : option string :=
  hgetall (SchedulerService.job_key event_id) db !! "status".

(** The queue holds the identifiers of the stored events whose status is
    "scheduled", and of no other stored event. *)
Definition index_iff_scheduled (db : redis) : Prop :=
  ∀ event_id : string,
    is_Some (SchedulerService.get_event event_id db) →
    (is_Some (queue db !! event_id)
     ↔ stored_status event_id db = Some (status_value SCHEDULED)).


(** The order in which the sorted set lists two of its members: by score,
    equal scores by the lexicographic order of the identifiers. *)
Definition due_order (db : redis) (id1 id2 : string) : Prop :=
  ∃ s1 s2 : Z,
    queue db !! id1 = Some s1 ∧ queue db !! id2 = Some s2 ∧
    (s1 < s2 ∨ (s1 = s2 ∧ String.leb id1 id2 = true)).

(** The due-time query as the specification words it: ascending by score,
    ties broken by insertion order.  [log] lists the insertions, oldest
    first; the result is that of a stable sort of the due entries. *)
Fixpoint insert_by_score (e : string * Z) (l : list (string * Z))
    : list (string * Z) :=
  match l with
  | [] => [e]
  | x :: rest => if e.2 <=? x.2 then e :: l else x :: insert_by_score e rest
  end.

Definition spec_due_before (log : list (string * Z)) (T : Z) (N : nat)
    : list string :=
  take N ((foldr insert_by_score [] (List.filter (λ e, e.2 <=? T) log)).*1).

(** The sorted set after the insertions of [log]. *)
Definition queue_of_log (log : list (string * Z)) : redis :=
  foldl (λ db e, zadd e.1 e.2 db) redis_empty log.
(* ===================================================================== *)
(** ** app/services/video_render.py *)
(* ===================================================================== *)

(** [class RenderEvent(BaseModel)] *)
Record RenderEvent : Set := mkRenderEvent {
  event_id : string;
  event_type : string;
  content : string;
  scheduled_time : datetime;
  status : EventStatus;
  metadata : string;
  created_at : datetime;
  updated_at : datetime
}.

Global Instance RenderEvent_eq_dec : EqDecision RenderEvent.
Proof. solve_decision. Defined.

(** [event.status = s] *)
Definition with_status (s : EventStatus) (e : RenderEvent) : RenderEvent :=
  mkRenderEvent (event_id e) (event_type e) (content e) (scheduled_time e) s
    (metadata e) (created_at e) (updated_at e).

Module VideoRenderService.

(** The value handed to [kafka_producer.send]. *)
Record message : Set := mkMessage {
  msg_event_id : string;
  msg_content : string;
  msg_scheduled_time : string
}.

Definition message_of (e : RenderEvent) : message :=
  mkMessage (event_id e) (content e) (isoformat (scheduled_time e)).

(** What the service shares with the other workers: the string keys of
    Redis, each holding the JSON of a [RenderEvent], and the messages sent
    to the Kafka topic, oldest first.  A key is given with the event that
    line 53 parses from its value, whose [scheduled_time] is naive: the
    loop body is described for the keys that pass lines 53 and 56, which
    stand outside the [try] block, without an exception. *)
Record state : Type := mkState {
  store : gmap string RenderEvent;
  topic : list message
}.

(** What the body of the [try] block meets.  [send_raises e]: the statement
    [self.kafka_producer.send(settings.KAFKA_TOPIC, ...)] for [e] raises.
    [processed_at_raises]: the assignment [event.processed_at = ...]
    raises. *)
Record world : Type := mkWorld {
  send_raises : RenderEvent → bool;
  processed_at_raises : bool
}.

(** What the body of the [try] block meets in this repository.  The
    argument [settings.KAFKA_TOPIC] is evaluated before [send] is called,
    and [Settings] declares no attribute of that name: the statement raises
    [AttributeError] for every event, and nothing is sent.  [RenderEvent]
    declares no field [processed_at], and a pydantic model refuses the
    assignment of an attribute it does not declare. *)
Definition repository_world : world := mkWorld (λ _, true) true.

(** [self.redis.set(event_key, event.json())] *)
Definition set_ (event_key : string) (e : RenderEvent) (st : state) : state :=
  mkState (<[event_key := e]> (store st)) (topic st).

(** [self.kafka_producer.send(settings.KAFKA_TOPIC, value=...)] *)
Definition send (m : message) (st : state) : state :=
  mkState (store st) (topic st ++ [m]).

(** [event.scheduled_time <= now and event.status == "pending"] *)
Definition due_and_pending (now : datetime) (e : RenderEvent) : bool :=
  bool_decide (scheduled_time e <= now) && bool_decide (status e = PENDING).

(** The loop body takes the event under [event_key]: the key holds an event
    that passes the test of line 56. *)
Definition takes (now : datetime) (event_key : string) (st : state) : bool :=
  match store st !! event_key with
  | None => false
  | Some event => due_and_pending now event
  end.

(** The body of the [for] loop of [_process_due_events] for one key. *)
Definition process_event (w : world) (now : datetime) (event_key : string)
    (st : state) : state :=
  match store st !! event_key with
  | None => st
  | Some event =>
      if due_and_pending now event then
        let processing := with_status PROCESSING event in
        let st1 := set_ event_key processing st in
        if send_raises w processing then
          set_ event_key (with_status FAILED processing) st1
        else
          let st2 := send (message_of processing) st1 in
          let completed := with_status COMPLETED processing in
          if processed_at_raises w then
            set_ event_key (with_status FAILED completed) st2
          else
            set_ event_key completed st2
      else st
  end.

(** *** Two workers on one key

    Each Redis command and each Kafka call is one atomic step; what a
    worker holds between two steps is the event object it has read. *)
Inductive pc : Type :=
  | AtGet
  | AtSetProcessing (event : RenderEvent)
  | AtSend (event : RenderEvent)
  | AtSetCompleted (event : RenderEvent)
  | AtSetFailed (event : RenderEvent)
  | Finished.

(** [claimed]: the worker passed the test of line 56 and entered the [try]
    block for the event. *)
Record worker : Type := mkWorker {
  at_ : pc;
  claimed : bool
}.

Definition worker_start : worker := mkWorker AtGet false.

Definition worker_step (w : world) (now : datetime) (event_key : string)
    (k : worker) (st : state) : worker * state :=
  match at_ k with
  | AtGet =>
      match store st !! event_key with
      | None => (mkWorker Finished (claimed k), st)
      | Some event =>
          if due_and_pending now event
          then (mkWorker (AtSetProcessing event) true, st)
          else (mkWorker Finished (claimed k), st)
      end
  | AtSetProcessing event =>
      let processing := with_status PROCESSING event in
      (mkWorker (AtSend processing) (claimed k), set_ event_key processing st)
  | AtSend event =>
      if send_raises w event
      then (mkWorker (AtSetFailed event) (claimed k), st)
      else (mkWorker (AtSetCompleted event) (claimed k),
            send (message_of event) st)
  | AtSetCompleted event =>
      let completed := with_status COMPLETED event in
      if processed_at_raises w
      then (mkWorker (AtSetFailed completed) (claimed k), st)
      else (mkWorker Finished (claimed k), set_ event_key completed st)
  | AtSetFailed event =>
      (mkWorker Finished (claimed k),
       set_ event_key (with_status FAILED event) st)
  | Finished => (k, st)
  end.

(** The worker is past its write of "processing", or has finished. *)
Definition past_first_write (p : pc) : bool :=
  match p with
  | AtGet | AtSetProcessing _ => false
  | _ => true
  end.

(** The number of messages sent for an event: its publish attempts that
    reached Kafka. *)
Definition sent_for (event_id : string) (st : state) : nat :=
  length (filter (λ m, msg_event_id m = event_id) (topic st)).

Inductive who : Set := A | B.

Record system : Type := mkSystem {
  worker_a : worker;
  worker_b : worker;
  shared : state
}.

Definition system_start (st : state) : system :=
  mkSystem worker_start worker_start st.

(** One step of the worker chosen by the scheduler. *)
Definition system_step (w : world) (now_a now_b : datetime)
    (event_key : string) (sys : system) (i : who) : system :=
  match i with
  | A =>
      let '(k, st) := worker_step w now_a event_key (worker_a sys) (shared sys) in
      mkSystem k (worker_b sys) st
  | B =>
      let '(k, st) := worker_step w now_b event_key (worker_b sys) (shared sys) in
      mkSystem (worker_a sys) k st
  end.

Definition run (w : world) (now_a now_b : datetime) (event_key : string)
    (schedule : list who) (sys : system) : system :=
  foldl (system_step w now_a now_b event_key) sys schedule.

(** The situation once worker [A] has read the key and, if it took the
    event, has written "processing", before worker [B] has taken anything:
    either [A] finished without taking the event, or the stored event is no
    longer pending and [B] holds nothing. *)
Definition first_write_done (event_key : string) (sys : system) : Prop :=
  (claimed (worker_a sys) = false ∧ at_ (worker_a sys) = Finished) ∨
  (past_first_write (at_ (worker_a sys)) = true ∧
   claimed (worker_b sys) = false ∧
   (at_ (worker_b sys) = AtGet ∨ at_ (worker_b sys) = Finished) ∧
   ∃ e, store (shared sys) !! event_key = Some e ∧ status e ≠ PENDING).

(** A worker running alone until it has finished with the key. *)
Definition run_alone (w : world) (now : datetime) (event_key : string)
    (st : state) : worker * state :=
  Nat.iter 5 (λ ks, worker_step w now event_key ks.1 ks.2) (worker_start, st).

End VideoRenderService.

(* ===================================================================== *)
(** ** app/core/metrics.py and the calls of it in scheduler.py *)
(* ===================================================================== *)

Module Metrics.

(** The metric families the scheduler and the middleware write to, each a
    map from the label values to the value of the child: the counters
    [api_requests] (method, endpoint, status) and [api_errors] (endpoint,
    error type), the gauge [active_requests] (endpoint), and for the
    histogram [request_latency] and the summary [response_size] the number
    of observations per endpoint (the observed values are not kept).  A
    child that does not exist yet reads 0. *)
Record metrics : Type := mkMetrics {
  api_requests : gmap (string * string * Z) nat;
  api_errors : gmap (string * string) nat;
  active_requests : gmap string Z;
  request_latency : gmap string nat;
  response_size : gmap string nat
}.

Definition metrics_start : metrics := mkMetrics ∅ ∅ ∅ ∅ ∅.

(** [inc_api_request] *)
Definition inc_api_request (method endpoint : string) (status : Z)
    (m : metrics) : metrics :=
  let labels := (method, endpoint, status) in
  mkMetrics (<[labels := S (default 0%nat (api_requests m !! labels))]>
               (api_requests m))
    (api_errors m) (active_requests m) (request_latency m) (response_size m).

(** [inc_api_error] *)
Definition inc_api_error (endpoint error_type : string) (m : metrics)
    : metrics :=
  let labels := (endpoint, error_type) in
  mkMetrics (api_requests m)
    (<[labels := S (default 0%nat (api_errors m !! labels))]> (api_errors m))
    (active_requests m) (request_latency m) (response_size m).

(** [inc_active_requests] *)
Definition inc_active_requests (endpoint : string) (m : metrics) : metrics :=
  mkMetrics (api_requests m) (api_errors m)
    (<[endpoint := default 0 (active_requests m !! endpoint) + 1]>
       (active_requests m))
    (request_latency m) (response_size m).

(** [dec_active_requests] *)
Definition dec_active_requests (endpoint : string) (m : metrics) : metrics :=
  mkMetrics (api_requests m) (api_errors m)
    (<[endpoint := default 0 (active_requests m !! endpoint) - 1]>
       (active_requests m))
    (request_latency m) (response_size m).

(** [observe_request_latency] *)
Definition observe_request_latency (endpoint : string) (m : metrics)
    : metrics :=
  mkMetrics (api_requests m) (api_errors m) (active_requests m)
    (<[endpoint := S (default 0%nat (request_latency m !! endpoint))]>
       (request_latency m))
    (response_size m).

(** [observe_response_size] *)
Definition observe_response_size (endpoint : string) (m : metrics)
    : metrics :=
  mkMetrics (api_requests m) (api_errors m) (active_requests m)
    (request_latency m)
    (<[endpoint := S (default 0%nat (response_size m !! endpoint))]>
       (response_size m)).

(** The value of the gauge [active_requests] for an endpoint. *)
Definition active (endpoint : string) (m : metrics) : Z :=
  default 0 (active_requests m !! endpoint).

(** The sum of [api_requests] over all its children. *)
Definition api_requests_total (m : metrics) : nat :=
  sum_list (map_to_list (api_requests m)).*2.

(** *** The service functions of scheduler.py with their metric calls

    Each is the function of [SchedulerService] together with the call of
    [metrics.inc_api_request] it makes, at the place it makes it: a call
    that raises or returns before that place counts nothing. *)

Definition schedule_event (timestamp : request_datetime → Z)
    (event_id : string) (created updated : datetime)
    (request : ScheduleEventRequest) (db : redis) (m : metrics)
    : redis * (error + ScheduleEventResponse) * metrics :=
  match SchedulerService.schedule_event timestamp event_id created updated
          request db with
  | (db', inl e) => (db', inl e, m)
  | (db', inr response) =>
      (db', inr response, inc_api_request "POST" "/scheduler" 201 m)
  end.

Definition get_event (event_id : string) (db : redis) (m : metrics)
    : option (gmap string string) * metrics :=
  match SchedulerService.get_event event_id db with
  | None => (None, m)
  | Some event_data =>
      (Some event_data,
       inc_api_request "GET" ("/scheduler/" +:+ event_id) 200 m)
  end.

Definition update_event_status (event_id : string) (status : EventStatus)
    (utcnow : datetime) (db : redis) (m : metrics)
    : redis * (error + bool) * metrics :=
  match SchedulerService.update_event_status event_id status utcnow db with
  | (db', inr true) =>
      (db', inr true, inc_api_request "PUT" ("/scheduler/" +:+ event_id) 200 m)
  | (db', result) => (db', result, m)
  end.

Definition get_pending_events (limit : Z) (now : Z) (db : redis)
    (m : metrics) : list (gmap string string) * metrics :=
  match zrangebyscore 0 now 0 limit db with
  | [] => ([], m)
  | event_ids =>
      (SchedulerService.fetch_events event_ids db,
       inc_api_request "GET" "/scheduler/pending" 200 m)
  end.

Definition remove_completed_events (event_ids : list string) (db : redis)
    (m : metrics) : redis * metrics :=
  (SchedulerService.remove_completed_events event_ids db,
   inc_api_request "DELETE" "/scheduler/cleanup" 200 m).

(** A call of the service and the state it leaves. *)
Inductive service_call : Type :=
  | CallSchedule (event_id : string) (created updated : datetime)
      (request : ScheduleEventRequest)
  | CallGet (event_id : string)
  | CallUpdate (event_id : string) (status : EventStatus) (utcnow : datetime)
  | CallPending (limit now : Z)
  | CallRemove (event_ids : list string).

Definition run_service_call (timestamp : request_datetime → Z)
    (c : service_call) (dm : redis * metrics) : redis * metrics :=
  match c with
  | CallSchedule event_id created updated request =>
      let '(db', _, m') :=
        schedule_event timestamp event_id created updated request dm.1 dm.2 in
      (db', m')
  | CallGet event_id => (dm.1, (get_event event_id dm.1 dm.2).2)
  | CallUpdate event_id status utcnow =>
      let '(db', _, m') :=
        update_event_status event_id status utcnow dm.1 dm.2 in
      (db', m')
  | CallPending limit now => (dm.1, (get_pending_events limit now dm.1 dm.2).2)
  | CallRemove event_ids => remove_completed_events event_ids dm.1 dm.2
  end.

(** The calls that are counted: a read that finds a record, a pending query
    with at least one due identifier, and a cleanup.  No call that
    schedules an event and no status update is among them. *)
Definition call_counted (c : service_call) (db : redis) : bool :=
  match c with
  | CallSchedule _ _ _ _ => false
  | CallGet event_id =>
      bool_decide (is_Some (SchedulerService.get_event event_id db))
  | CallUpdate _ _ _ => false
  | CallPending limit now =>
      bool_decide (zrangebyscore 0 now 0 limit db ≠ [])
  | CallRemove _ => true
  end.

(** The number of calls of a sequence that are counted, each in the state
    the calls before it have left. *)
Fixpoint counted_calls (timestamp : request_datetime → Z)
    (cs : list service_call) (dm : redis * metrics) : nat :=
  match cs with
  | [] => 0
  | c :: rest =>
      ((if call_counted c dm.1 then 1 else 0)
       + counted_calls timestamp rest (run_service_call timestamp c dm))%nat
  end.

(** *** app/core/middleware.py *)

(** What [call_next] comes back with: a response with its status code, or
    an exception with the name of its type. *)
Inductive outcome : Type :=
  | Responded (status_code : Z)
  | Raised (exception_type : string).

(** [MetricsMiddleware.dispatch].  [call_next] is the rest of the
    application: it returns an outcome and the metrics as it leaves them. *)
Definition dispatch (method endpoint : string)
    (call_next : metrics → outcome * metrics) (m : metrics)
    : outcome * metrics :=
  let m1 := inc_active_requests endpoint m in
  let '(result, m2) := call_next m1 in
  let m3 :=
    match result with
    | Responded status_code =>
        let m2a := observe_request_latency endpoint m2 in
        let m2b := observe_response_size endpoint m2a in
        let m2c := inc_api_request method endpoint status_code m2b in
        if bool_decide (400 <= status_code)
        then inc_api_error endpoint ("http_" +:+ pretty status_code) m2c
        else m2c
    | Raised exception_type => inc_api_error endpoint exception_type m2
    end in
  (result, dec_active_requests endpoint m3).

End Metrics.

(* ===================================================================== *)
(** ** app/core/redis.py *)
(* ===================================================================== *)

Module RedisManager.

(** The class attributes of [RedisManager], the gauge [db_connections] it
    sets, and the number of connection pools created so far.  A pool is
    known by its number; a client is known by the pool it was built on. *)
Record manager : Set := mkManager {
  _pool : option nat;
  _client : option nat;
  db_connections : Z;
  pools_created : nat
}.

(** The state at import time; a gauge starts at 0. *)
Definition manager_start : manager := mkManager None None 0 0.

(** [initialize] *)
Definition initialize (m : manager) : manager :=
  match _pool m with
  | None =>
      let pool := pools_created m in
      mkManager (Some pool) (Some pool) 1 (S (pools_created m))
  | Some _ => m
  end.

(** [get_client]: the client returned and the state left. *)
Definition get_client (m : manager) : option nat * manager :=
  let m' := match _client m with
            | None => initialize m
            | Some _ => m
            end in
  (_client m', m').

(** [close] *)
Definition close (m : manager) : manager :=
  let m1 := match _client m with
            | Some _ => mkManager (_pool m) None (db_connections m)
                          (pools_created m)
            | None => m
            end in
  match _pool m1 with
  | Some _ => mkManager None (_client m1) 0 (pools_created m1)
  | None => m1
  end.

Inductive manager_call : Set :=
  | Initialize
  | GetClient
  | Close.

Definition run_manager_call (c : manager_call) (m : manager) : manager :=
  match c with
  | Initialize => initialize m
  | GetClient => (get_client m).2
  | Close => close m
  end.

(** The states the calls bring the manager into. *)
Inductive manager_reachable : manager → Prop :=
  | manager_reachable_start : manager_reachable manager_start
  | manager_reachable_call c m :
      manager_reachable m → manager_reachable (run_manager_call c m).

(** [SchedulerService._get_redis]: [redis] is the attribute [self.redis];
    the client returned, the attribute and the manager afterwards. *)
Definition _get_redis (redis : option nat) (m : manager)
    : option nat * option nat * manager :=
  match redis with
  | None =>
      let '(client, m') := get_client m in
      (client, client, m')
  | Some client => (Some client, Some client, m)
  end.

End RedisManager.

(* ===================================================================== *)
(** ** app/models/schemas.py: the validators of CEP and CNPJ *)
(* ===================================================================== *)

(** A Python [str] is a sequence of code points.  The validators only ask
    of a code point whether [str.isdigit] holds of it, so they are given
    for any type [char] of code points and any such test. *)
Section validators.
Context {char : Type} (isdigit : char → bool).

(** [''.join(filter(str.isdigit, v))] *)
Definition only_digits (v : list char) : list char := List.filter isdigit v.

(** [Address.validate_cep] *)
Definition Address_validate_cep (v : list char) : error + list char :=
  let cep := only_digits v in
  if decide (length cep ≠ 8%nat)
  then inl (ValueError "CEP deve conter 8 dígitos")
  else inr cep.

(** [CustomerValidationRequest.validate_cnpj] *)
Definition CustomerValidationRequest_validate_cnpj (v : list char)
    : error + list char :=
  let cnpj := only_digits v in
  if decide (length cnpj ≠ 14%nat)
  then inl (ValueError "CNPJ deve conter 14 dígitos")
  else inr cnpj.

(** [ValidationRequest.validate_cnpj] *)
Definition ValidationRequest_validate_cnpj (v : list char)
    : error + list char :=
  let v := only_digits v in
  if decide (length v ≠ 14%nat)
  then inl (ValueError "CNPJ must have 14 digits")
  else inr v.

(** [ValidationRequest.validate_cep] *)
Definition ValidationRequest_validate_cep (v : list char)
    : error + list char :=
  let v := only_digits v in
  if decide (length v ≠ 8%nat)
  then inl (ValueError "CEP must have 8 digits")
  else inr v.

End validators.

(** [str.isdigit] on the code points below 128. *)
Definition ascii_isdigit (c : Ascii.ascii) : bool :=
  (48 <=? Ascii.nat_of_ascii c)%nat && (Ascii.nat_of_ascii c <=? 57)%nat.

(* ===================================================================== *)
(** * Properties *)
(* ===================================================================== *)

(** ** Redis commands *)

Section redis_facts.
Implicit Types (db : redis) (key member : string).

Lemma redis_eq db1 db2 :
  hashes db1 = hashes db2 → queue db1 = queue db2 → db1 = db2.
Proof. destruct db1, db2; simpl; congruence. Qed.

Lemma lookup_foldr_delete {V} (m : gmap string V) (ks : list string) k :
  foldr delete m ks !! k = if decide (k ∈ ks) then None else m !! k.
Proof.
  induction ks as [|k' ks IH].
  - case_decide as Hin; [by apply elem_of_nil in Hin|done].
  - change (foldr delete m (k' :: ks)) with (delete k' (foldr delete m ks)).
    destruct (decide (k' = k)) as [->|Hne].
    + rewrite lookup_delete_eq. rewrite decide_True; [done|].
      apply elem_of_cons. by left.
    + rewrite lookup_delete_ne, IH by done.
      repeat case_decide; try done; exfalso.
      * select (k ∉ k' :: ks) (fun H => apply H). apply elem_of_cons. by right.
      * select (k ∈ k' :: ks) (fun H => apply elem_of_cons in H as [?|?]); congruence.
Qed.

End redis_facts.

(** ** SchedulerService *)

Section scheduler_facts.
Import SchedulerService.
Implicit Types (db : redis) (event_id : string).

Lemma job_key_inj event_id1 event_id2 :
  job_key event_id1 = job_key event_id2 → event_id1 = event_id2.
Proof. unfold job_key. apply (inj (String.app job_prefix)). Qed.

Lemma hashes_fold_delete (ids : list string) db :
  hashes (foldl (λ d i, delete_ (job_key i) d) db ids)
  = foldr delete (hashes db) (job_key <$> reverse ids).
Proof.
  revert db. induction ids as [|i ids IH]; intros db; simpl; [done|].
  rewrite IH, reverse_cons, fmap_app, foldr_app. done.
Qed.

Lemma queue_fold_delete (ids : list string) db :
  queue (foldl (λ d i, delete_ (job_key i) d) db ids) = queue db.
Proof. revert db. induction ids as [|i ids IH]; intros db; simpl; [done|by rewrite IH]. Qed.

Lemma remove_hashes_lookup (ids : list string) db key :
  hashes (remove_completed_events ids db) !! key
  = if decide (key ∈ job_key <$> ids) then None else hashes db !! key.
Proof.
  unfold remove_completed_events. rewrite hashes_fold_delete, lookup_foldr_delete.
  assert (hashes match ids with [] => db | _ :: _ => zrem ids db end = hashes db)
    as -> by (by destruct ids).
  destruct (decide (key ∈ job_key <$> reverse ids)) as [Hin|Hin];
    rewrite fmap_reverse, elem_of_reverse in Hin.
  - by rewrite decide_True.
  - by rewrite decide_False.
Qed.

Lemma remove_queue_lookup (ids : list string) db member :
  queue (remove_completed_events ids db) !! member
  = if decide (member ∈ ids) then None else queue db !! member.
Proof.
  unfold remove_completed_events. rewrite queue_fold_delete.
  destruct ids as [|i ids].
  - by rewrite decide_False by (by intros ?%elem_of_nil).
  - unfold zrem; simpl queue. apply (lookup_foldr_delete _ (i :: ids)).
Qed.

Lemma hgetall_remove (ids : list string) db event_id :
  hgetall (job_key event_id) (remove_completed_events ids db)
  = if decide (event_id ∈ ids) then ∅ else hgetall (job_key event_id) db.
Proof.
  unfold hgetall. rewrite remove_hashes_lookup.
  destruct (decide (event_id ∈ ids)) as [Hin|Hnin].
  - rewrite decide_True; [done|]. by apply list_elem_of_fmap_2.
  - rewrite decide_False; [done|].
    intros (y & Heq%job_key_inj & Hy)%list_elem_of_fmap. congruence.
Qed.

End scheduler_facts.

(** ** What the Redis client refuses *)

Section client_facts.
Import SchedulerService.
Implicit Types (db : redis) (event_id : string).

(** [hset(name, mapping=event_data)] meets the dictionary under ["content"]
    when it encodes its arguments. *)
Lemma schedule_event_refused (timestamp : request_datetime → Z) event_id
    (created updated : datetime) (request : ScheduleEventRequest) db :
  schedule_event timestamp event_id created updated request db
  = (db, inl DataError).
Proof. reflexivity. Qed.

(** [hset(name, "status", value, "updated_at", iso)] asks the string
    ["updated_at"] for its [items]. *)
Lemma update_event_status_raises event_id (status : EventStatus)
    (utcnow : datetime) db :
  exists_ (job_key event_id) db = true →
  update_event_status event_id status utcnow db = (db, inl AttributeError).
Proof.
  intros Hex. unfold update_event_status, client_hset. rewrite Hex. simpl.
  by destruct (negb _).
Qed.

Lemma update_event_status_not_found event_id (status : EventStatus)
    (utcnow : datetime) db :
  exists_ (job_key event_id) db = false →
  update_event_status event_id status utcnow db = (db, inr false).
Proof. intros Hex. unfold update_event_status. by rewrite Hex. Qed.

(** Neither a [POST /events] nor a status update changes Redis. *)
Lemma run_call_no_write (timestamp : request_datetime → Z) (c : api_call) db :
  (∀ event_ids, c ≠ DeleteCleanup event_ids) → run_call timestamp c db = db.
Proof.
  destruct c as [now i created updated event_type content scheduled_time
                   metadata|i status utcnow|event_ids]; simpl; intros Hc.
  - unfold Router.schedule_event.
    destruct parse_ScheduleEventRequest as [err|request]; [done|].
    by rewrite schedule_event_refused.
  - unfold Router.update_event_status.
    destruct (exists_ (job_key i) db) eqn:Hex.
    + by rewrite update_event_status_raises.
    + by rewrite update_event_status_not_found.
  - by destruct (Hc event_ids).
Qed.

End client_facts.

Section schedule_facts.
Import SchedulerService.
Implicit Types (db : redis) (event_id : string).

(** C5: what [POST /events] does with a [scheduled_time] that is not in the
    future depends on how the time is written.  A naive time that is not
    after the current time is refused by the validator with the
    [ValueError] "A data agendada deve ser futura".  A time that carries an
    offset is not compared at all: the comparison with the naive
    [datetime.now()] raises [TypeError], for a past time as for any other,
    and the request ends in that exception instead of the validation
    error.  In both cases Redis is left exactly as it was. *)
Theorem C5_past_schedule_rejection (timestamp : request_datetime → Z)
    (now : datetime) event_id (created updated : datetime)
    (event_type : string) (content metadata : list (string * pyvalue)) db :
  (∀ t : datetime, t <= now →
     Router.schedule_event timestamp now event_id created updated event_type
       content (Naive t) metadata db
     = (db, inl (ValueError "A data agendada deve ser futura"))) ∧
  (∀ (t : datetime) (utcoffset : Z),
     Router.schedule_event timestamp now event_id created updated event_type
       content (Aware t utcoffset) metadata db
     = (db, inl TypeError)).
Proof.
  split.
  - intros t Hpast.
    unfold Router.schedule_event, parse_ScheduleEventRequest,
      validate_scheduled_time.
    by rewrite bool_decide_eq_true_2.
  - reflexivity.
Qed.

(** C6: a request that passes validation is not answered with an
    identifier.  [schedule_event] hands the dictionaries [content] and
    [metadata] to [hset], which raises [DataError] before any command is
    sent; the handler turns the exception into a 500, and Redis is left as
    it was: no record is written, nothing enters the queue, and [GET]
    answers for every identifier what it answered before. *)
Theorem C6_valid_schedule_answers_500 (timestamp : request_datetime → Z)
    (now : datetime) event_id (created updated : datetime)
    (event_type : string) (content metadata : list (string * pyvalue))
    (t : datetime) db :
  now < t →
  Router.schedule_event timestamp now event_id created updated event_type
    content (Naive t) metadata db
  = (db, inl (HTTP500 DataError)).
Proof.
  intros Hfuture.
  unfold Router.schedule_event, parse_ScheduleEventRequest,
    validate_scheduled_time.
  rewrite bool_decide_eq_false_2 by lia. reflexivity.
Qed.

(** C9: a status update of an event that exists writes nothing.  The call
    of [hset] raises [AttributeError] before any command is sent, the
    handler lets the exception through, and Redis is left as it was:
    neither [status] nor [updated_at] is written. *)
Theorem C9_status_update_raises event_id (status : EventStatus)
    (utcnow : datetime) db :
  exists_ (job_key event_id) db = true →
  update_event_status event_id status utcnow db = (db, inl AttributeError) ∧
  Router.update_event_status event_id status utcnow db
  = (db, inl AttributeError).
Proof.
  intros Hex. unfold Router.update_event_status.
  by rewrite update_event_status_raises.
Qed.

(** C8: [remove_completed_events] always returns; afterwards none of the
    listed identifiers has a record or a queue entry, so [GET] answers 404
    for each of them; identifiers outside the list keep their record and
    their queue entry; a list of unknown identifiers changes nothing; and
    a second application changes nothing more. *)
Theorem C8_remove_idempotent (event_ids : list string) db :
  let db' := remove_completed_events event_ids db in
  (∀ event_id, event_id ∈ event_ids →
     Router.get_event event_id db' = inl (HTTP404 "Event not found") ∧
     queue db' !! event_id = None) ∧
  (∀ event_id, event_id ∉ event_ids →
     Router.get_event event_id db' = Router.get_event event_id db ∧
     queue db' !! event_id = queue db !! event_id) ∧
  ((∀ event_id, event_id ∈ event_ids →
      hashes db !! job_key event_id = None ∧ queue db !! event_id = None) →
   db' = db) ∧
  remove_completed_events event_ids db' = db'.
Proof.
  cbn zeta. split_and!.
  - intros event_id Hin. split.
    + unfold Router.get_event, get_event.
      rewrite hgetall_remove. by rewrite (decide_True _ _ Hin).
    + by rewrite remove_queue_lookup, decide_True.
  - intros event_id Hnin. split.
    + unfold Router.get_event, get_event.
      rewrite hgetall_remove. by rewrite (decide_False _ _ Hnin).
    + by rewrite remove_queue_lookup, decide_False.
  - intros Hunknown. apply redis_eq; apply map_eq; intros k.
    + rewrite remove_hashes_lookup. case_decide as Hin; [|done].
      apply list_elem_of_fmap in Hin as (y & -> & Hy).
      symmetry. by apply Hunknown.
    + rewrite remove_queue_lookup. case_decide as Hin; [|done].
      symmetry. by apply Hunknown.
  - apply redis_eq; apply map_eq; intros k.
    + rewrite !remove_hashes_lookup. by case_decide.
    + rewrite !remove_queue_lookup. by case_decide.
Qed.

End schedule_facts.

(** ** The invariant of the queue *)

Section invariant.
Import SchedulerService.
Implicit Types (db : redis) (event_id : string).

Lemma index_iff_scheduled_empty : index_iff_scheduled redis_empty.
Proof. intros event_id [e He]. by vm_compute in He. Qed.

Lemma index_iff_scheduled_remove (event_ids : list string) db :
  index_iff_scheduled db →
  index_iff_scheduled (remove_completed_events event_ids db).
Proof.
  intros Hinv event_id. unfold get_event, stored_status.
  rewrite hgetall_remove, remove_queue_lookup.
  destruct (decide (event_id ∈ event_ids)) as [Hin|Hnin].
  - rewrite decide_True by done. by intros [? ?].
  - apply Hinv.
Qed.

Lemma index_iff_scheduled_run_call (timestamp : request_datetime → Z)
    (c : api_call) db :
  index_iff_scheduled db → index_iff_scheduled (run_call timestamp c db).
Proof.
  intros Hinv.
  destruct c as [now i created updated event_type content scheduled_time
                   metadata|i status utcnow|event_ids].
  - by rewrite run_call_no_write.
  - by rewrite run_call_no_write.
  - by apply index_iff_scheduled_remove.
Qed.

(** C2: an identifier of a stored event is in the queue exactly when the
    status of the event is "scheduled".  This holds in the empty Redis, it
    is kept by every call of the API from any state in which it holds, and
    so it holds in every state the API can reach: a call that schedules an
    event and a status update leave Redis as it was, and a cleanup removes
    the record and the queue entry together. *)
Theorem C2_index_iff_scheduled (timestamp : request_datetime → Z) :
  index_iff_scheduled redis_empty ∧
  (∀ (c : api_call) db,
     index_iff_scheduled db → index_iff_scheduled (run_call timestamp c db)) ∧
  (∀ db, reachable timestamp db → index_iff_scheduled db).
Proof.
  split_and!.
  - apply index_iff_scheduled_empty.
  - apply index_iff_scheduled_run_call.
  - induction 1 as [|c db Hdb IH]; [apply index_iff_scheduled_empty|].
    by apply index_iff_scheduled_run_call.
Qed.

End invariant.

(** ** The order of the sorted set *)

Section zset_order.

Lemma ascii_compare_lt_trans (a b c : Ascii.ascii) :
  Ascii.compare a b = Lt → Ascii.compare b c = Lt → Ascii.compare a c = Lt.
Proof.
  unfold Ascii.compare. rewrite !N.compare_lt_iff. apply N.lt_trans.
Qed.

Lemma string_compare_lt_trans (a b c : string) :
  String.compare a b = Lt → String.compare b c = Lt → String.compare a c = Lt.
Proof.
  revert b c. induction a as [|x a IH]; intros [|y b] [|z c]; simpl; try done.
  destruct (Ascii.compare x y) eqn:Hxy; try done;
    destruct (Ascii.compare y z) eqn:Hyz; try done.
  - apply Ascii.compare_eq_iff in Hxy as ->. rewrite Hyz.
    apply Ascii.compare_eq_iff in Hyz as ->.
    intros ??. by eapply IH.
  - apply Ascii.compare_eq_iff in Hxy as ->. by rewrite Hyz.
  - apply Ascii.compare_eq_iff in Hyz as <-. by rewrite Hxy.
  - by rewrite (ascii_compare_lt_trans x y z).
Qed.

Lemma string_leb_spec (a b : string) :
  String.leb a b = true ↔ String.compare a b = Lt ∨ a = b.
Proof.
  unfold String.leb. destruct (String.compare a b) eqn:Hc.
  - apply String.compare_eq_iff in Hc. naive_solver.
  - naive_solver.
  - split; [done|]. intros [?| ->]; [done|].
    pose proof (String.compare_antisym b b) as Hanti.
    rewrite Hc in Hanti. discriminate Hanti.
Qed.

Lemma string_leb_trans (a b c : string) :
  String.leb a b = true → String.leb b c = true → String.leb a c = true.
Proof.
  rewrite !string_leb_spec. intros [Hab| ->] [Hbc| ->]; eauto.
  left. by eapply string_compare_lt_trans.
Qed.

Global Instance zset_le_total : Total zset_le.
Proof.
  intros [m1 s1] [m2 s2]. unfold zset_le, zset_leb; simpl.
  destruct (Z.lt_total s1 s2) as [Hlt|[->|Hgt]].
  - left. apply orb_true_iff. left. by apply Z.ltb_lt.
  - rewrite Z.eqb_refl, !andb_true_l.
    destruct (String.leb_total m1 m2) as [->| ->];
      [left|right]; apply orb_true_r.
  - right. apply orb_true_iff. left. by apply Z.ltb_lt.
Qed.

Global Instance zset_le_trans : Transitive zset_le.
Proof.
  intros [m1 s1] [m2 s2] [m3 s3]. unfold zset_le, zset_leb; simpl.
  rewrite !orb_true_iff, !andb_true_iff, !Z.ltb_lt, !Z.eqb_eq.
  intros [H12|[-> H12]] [H23|[-> H23]]; try (left; lia); try (by left).
  right. split; [done|]. by eapply string_leb_trans.
Qed.

Lemma zset_le_iff (m1 m2 : string) (s1 s2 : Z) :
  zset_le (m1, s1) (m2, s2) ↔ s1 < s2 ∨ (s1 = s2 ∧ String.leb m1 m2 = true).
Proof.
  unfold zset_le, zset_leb; simpl.
  by rewrite orb_true_iff, andb_true_iff, Z.ltb_lt, Z.eqb_eq.
Qed.

Lemma StronglySorted_filter {A} (R : relation A) (P : A → Prop)
    `{∀ x, Decision (P x)} (l : list A) :
  StronglySorted R l → StronglySorted R (filter P l).
Proof.
  induction 1 as [|x l Hl IH Hx]; [constructor|].
  rewrite filter_cons. case_decide; [|done].
  constructor; [done|]. apply Forall_forall. intros y [_ Hy]%list_elem_of_filter.
  by eapply Forall_forall in Hx.
Qed.

Lemma StronglySorted_take {A} (R : relation A) (n : nat) (l : list A) :
  StronglySorted R l → StronglySorted R (take n l).
Proof.
  intros Hl. rewrite <- (take_drop n l) in Hl.
  by apply StronglySorted_app_1_l in Hl.
Qed.

Lemma StronglySorted_and {A} (R : relation A) (P : A → Prop) (l : list A) :
  StronglySorted R l → Forall P l →
  StronglySorted (λ a b, P a ∧ P b ∧ R a b) l.
Proof.
  induction 1 as [|x l Hl IH Hx]; intros HP; [constructor|].
  apply Forall_cons in HP as [HPx HPl].
  constructor; [by apply IH|].
  rewrite Forall_forall in *. naive_solver.
Qed.

Lemma elem_of_zset_entries (q : gmap string Z) (member : string) (score : Z) :
  (member, score) ∈ zset_entries q ↔ q !! member = Some score.
Proof.
  unfold zset_entries. rewrite merge_sort_Permutation.
  apply elem_of_map_to_list.
Qed.

Lemma zset_entries_sorted (q : gmap string Z) :
  StronglySorted zset_le (zset_entries q).
Proof. apply StronglySorted_merge_sort; apply _. Qed.

Lemma zset_entries_NoDup (q : gmap string Z) : NoDup (zset_entries q).*1.
Proof.
  unfold zset_entries. rewrite merge_sort_Permutation.
  apply NoDup_fst_map_to_list.
Qed.

End zset_order.

(** ** The due-time query *)

Section due_query.
Import SchedulerService.
Implicit Types (db : redis) (event_id : string).

(** Without a count the query returns every member in the score range. *)
Lemma zrangebyscore_all (min max : Z) db :
  zrangebyscore min max 0 (-1) db
  = (filter (λ e : string * Z, min <= e.2 <= max) (zset_entries (queue db))).*1.
Proof. unfold zrangebyscore, limit_slice. simpl. by rewrite drop_0. Qed.

(** With a count the query returns a prefix of that list. *)
Lemma zrangebyscore_limit (min max N : Z) db :
  zrangebyscore min max 0 N db
  = if N <? 0 then zrangebyscore min max 0 (-1) db
    else take (Z.to_nat N) (zrangebyscore min max 0 (-1) db).
Proof.
  rewrite zrangebyscore_all. unfold zrangebyscore, limit_slice. simpl.
  by rewrite drop_0.
Qed.

Lemma elem_of_zrangebyscore_all (min max : Z) db event_id :
  event_id ∈ zrangebyscore min max 0 (-1) db
  ↔ ∃ score, queue db !! event_id = Some score ∧ min <= score <= max.
Proof.
  rewrite zrangebyscore_all, list_elem_of_fmap. split.
  - intros ([m s] & -> & [Hr Hin%elem_of_zset_entries]%list_elem_of_filter).
    eauto.
  - intros (score & Hq & Hr). exists (event_id, score). split; [done|].
    apply list_elem_of_filter. split; [done|]. by apply elem_of_zset_entries.
Qed.

Lemma zrangebyscore_all_NoDup (min max : Z) db :
  NoDup (zrangebyscore min max 0 (-1) db).
Proof.
  rewrite zrangebyscore_all.
  eapply sublist_NoDup; [apply (zset_entries_NoDup (queue db))|].
  apply fmap_sublist, sublist_filter.
Qed.

Lemma zrangebyscore_all_sorted (min max : Z) db :
  StronglySorted (due_order db) (zrangebyscore min max 0 (-1) db).
Proof.
  rewrite zrangebyscore_all.
  eapply (StronglySorted_fmap fst
            (λ a b, queue db !! a.1 = Some a.2 ∧ queue db !! b.1 = Some b.2
                    ∧ zset_le a b)).
  - intros [m1 s1] [m2 s2] (H1 & H2 & Hle%zset_le_iff). simpl in *.
    by exists s1, s2.
  - apply (StronglySorted_and zset_le (λ a, queue db !! a.1 = Some a.2)).
    + apply StronglySorted_filter, zset_entries_sorted.
    + apply Forall_forall.
      intros [m s] [_ Hin%elem_of_zset_entries]%list_elem_of_filter. done.
Qed.

Lemma zrangebyscore_length (min max N : Z) db :
  0 <= N → Z.of_nat (length (zrangebyscore min max 0 N db)) <= N.
Proof.
  intros HN. rewrite zrangebyscore_limit.
  destruct (N <? 0) eqn:Hneg; [apply Z.ltb_lt in Hneg; lia|].
  rewrite length_take. lia.
Qed.

Lemma fetch_events_filter (ids : list string) db :
  fetch_events ids db
  = filter (λ e : gmap string string, e ≠ ∅)
      ((λ event_id, hgetall (job_key event_id) db) <$> ids).
Proof.
  induction ids as [|i ids IH]; [done|].
  rewrite fmap_cons, filter_cons. simpl.
  destruct (decide (hgetall (job_key i) db = ∅)) as [He|He].
  - by rewrite decide_False by (by intros H; apply H).
  - by rewrite decide_True, IH by done.
Qed.

Lemma get_pending_events_fetch (limit now : Z) db :
  get_pending_events limit now db
  = fetch_events (zrangebyscore 0 now 0 limit db) db.
Proof. unfold get_pending_events. by destruct zrangebyscore. Qed.

(** C7, as the code has it.  The identifiers the query looks at are the
    members of the queue whose score [s] satisfies [0 <= s <= T]; they come
    without repetition, ascending by score, and members of equal score in
    the lexicographic order of the identifiers (the queue keeps no record of
    insertion order).  A limit [N >= 0] keeps the first [N] of them, a
    negative limit keeps all; [get_pending_events] reads the records of the
    identifiers kept. *)
Theorem C7_due_query_order (T N : Z) db :
  let due := zrangebyscore 0 T 0 (-1) db in
  let ids := zrangebyscore 0 T 0 N db in
  (∀ event_id,
     event_id ∈ due
     ↔ ∃ score, queue db !! event_id = Some score ∧ 0 <= score <= T) ∧
  NoDup due ∧
  StronglySorted (due_order db) due ∧
  ids = (if N <? 0 then due else take (Z.to_nat N) due) ∧
  (0 <= N → Z.of_nat (length ids) <= N) ∧
  get_pending_events N T db = fetch_events ids db.
Proof.
  cbn zeta. split_and!.
  - apply elem_of_zrangebyscore_all.
  - apply zrangebyscore_all_NoDup.
  - apply zrangebyscore_all_sorted.
  - apply zrangebyscore_limit.
  - apply zrangebyscore_length.
  - apply get_pending_events_fetch.
Qed.

(** C7 fails as stated, twice.  Two events scheduled for the same time, "b"
    before "a", are returned "a" first, where insertion order asks for "b"
    first; and with the limit [-1] both are returned. *)
Lemma C7_counterexample :
  let log := [("b", 5000000); ("a", 5000000)] in
  let db :=
    zadd "a" 5000000
      (hset (job_key "a") [("event_id", "a"); ("status", "scheduled")]
         (zadd "b" 5000000
            (hset (job_key "b") [("event_id", "b"); ("status", "scheduled")]
               redis_empty))) in
  queue db = queue (queue_of_log log) ∧
  zrangebyscore 0 9000000 0 10 db = ["a"; "b"] ∧
  spec_due_before log 9000000 10 = ["b"; "a"] ∧
  (λ e : gmap string string, e !! "event_id")
    <$> get_pending_events 10 9000000 db = [Some "a"; Some "b"] ∧
  zrangebyscore 0 9000000 0 (-1) db = ["a"; "b"].
Proof. cbn zeta. split_and!; by vm_compute. Qed.

(** C10, as the code has it.  [get_pending_events] always returns: it is
    the list of the records of the identifiers the query returned, without
    those whose record is missing.  So every event returned has a stored
    body and belongs to a due identifier, and for a limit [N >= 0] there are
    at most [N] of them. *)
Theorem C10_pending_skips_dangling (N now : Z) db :
  let ids := zrangebyscore 0 now 0 N db in
  let events := get_pending_events N now db in
  events = filter (λ e : gmap string string, e ≠ ∅)
             ((λ event_id, hgetall (job_key event_id) db) <$> ids) ∧
  (∀ e, e ∈ events →
     ∃ event_id, event_id ∈ ids ∧ get_event event_id db = Some e) ∧
  (∀ event_id, event_id ∈ ids → get_event event_id db = None →
     hgetall (job_key event_id) db ∉ events) ∧
  (0 <= N → Z.of_nat (length events) <= N).
Proof.
  cbn zeta. rewrite get_pending_events_fetch, fetch_events_filter.
  split_and!.
  - done.
  - intros e [Hne (i & -> & Hi)%list_elem_of_fmap]%list_elem_of_filter.
    exists i. split; [done|]. unfold get_event. by rewrite decide_False.
  - intros i Hi Hnone [Hne _]%list_elem_of_filter.
    unfold get_event in Hnone. by case_decide.
  - intros HN. pose proof (zrangebyscore_length 0 now N db HN) as Hlen.
    pose proof (length_filter (λ e : gmap string string, e ≠ ∅)
                  ((λ event_id, hgetall (job_key event_id) db)
                     <$> zrangebyscore 0 now 0 N db)) as Hf.
    rewrite length_fmap in Hf. lia.
Qed.

(** C10 fails as stated for a negative limit: with the limit [-1] the one
    due event is returned. *)
Lemma C10_counterexample :
  let db :=
    zadd "e1" 5000000
      (hset (job_key "e1") [("event_id", "e1"); ("status", "scheduled")]
         redis_empty) in
  length (get_pending_events (-1) 9000000 db) = 1%nat ∧
  ¬ (Z.of_nat (length (get_pending_events (-1) 9000000 db)) <= -1).
Proof. cbn zeta. split; [by vm_compute|]. by vm_compute. Qed.

End due_query.

(** ** The render dispatcher *)

Section dispatcher.
Import VideoRenderService.
Implicit Types (w : world) (st : state) (e : RenderEvent) (key : string).

Lemma with_status_with_status (s1 s2 : EventStatus) e :
  with_status s1 (with_status s2 e) = with_status s1 e.
Proof. by destruct e. Qed.

Lemma status_with_status (s : EventStatus) e : status (with_status s e) = s.
Proof. by destruct e. Qed.

Lemma due_and_pending_status now e :
  due_and_pending now e = true → status e = PENDING.
Proof.
  unfold due_and_pending. intros [_ H]%andb_true_iff.
  by apply bool_decide_eq_true in H.
Qed.

(** The loop body writes to its own key only. *)
Lemma process_event_other w now key key' st :
  key ≠ key' →
  store (process_event w now key st) !! key' = store st !! key'.
Proof.
  intros Hne. unfold process_event.
  destruct (store st !! key) as [e|]; [|done].
  destruct (due_and_pending now e); [|done].
  destruct (send_raises w _); [|destruct (processed_at_raises w)];
    simpl; by rewrite !lookup_insert_ne.
Qed.

(** An event that is not pending is not acted upon. *)
Lemma process_event_not_pending w now key st e :
  store st !! key = Some e → status e ≠ PENDING →
  process_event w now key st = st.
Proof.
  intros Hk Hst. unfold process_event. rewrite Hk.
  destruct (due_and_pending now e) eqn:Hd; [|done].
  by apply due_and_pending_status in Hd.
Qed.

(** What the loop body leaves under its key when it takes the event. *)
Lemma process_event_taken w now key st e :
  store st !! key = Some e → due_and_pending now e = true →
  store (process_event w now key st) !! key
  = Some (with_status
            (if send_raises w (with_status PROCESSING e) then FAILED
             else if processed_at_raises w then FAILED else COMPLETED) e).
Proof.
  intros Hk Hd. unfold process_event. rewrite Hk, Hd.
  destruct (send_raises w _); [|destruct (processed_at_raises w)];
    simpl; by rewrite lookup_insert_eq, !with_status_with_status.
Qed.

Lemma process_runs_not_pending w (runs : list (datetime * string)) st key e :
  store st !! key = Some e → status e ≠ PENDING →
  store (foldl (λ s r, process_event w r.1 r.2 s) st runs) !! key = Some e.
Proof.
  revert st. induction runs as [|[now k] runs IH]; intros st Hk Hst; [done|].
  simpl. apply IH; [|done].
  destruct (decide (k = key)) as [->|Hne].
  - by rewrite (process_event_not_pending w now key st e).
  - by rewrite process_event_other.
Qed.

Lemma message_of_with_status (s : EventStatus) e :
  message_of (with_status s e) = message_of e.
Proof. by destruct e. Qed.

(** A worker that runs alone does what the loop body does. *)
Lemma run_alone_process_event w now key st :
  (run_alone w now key st).2 = process_event w now key st.
Proof.
  unfold run_alone, process_event. simpl.
  unfold worker_step, worker_start. simpl.
  destruct (store st !! key) as [e|]; simpl; [|done].
  destruct (due_and_pending now e); simpl; [|done].
  destruct (send_raises w (with_status PROCESSING e)); simpl; [done|].
  by destruct (processed_at_raises w).
Qed.

End dispatcher.

Section dispatcher_claims.
Import VideoRenderService.
Implicit Types (w : world) (st : state) (e : RenderEvent) (key : string).

Lemma first_write_done_step w now_a now_b key sys (i : who) :
  first_write_done key sys →
  first_write_done key (system_step w now_a now_b key sys i).
Proof.
  destruct sys as [[pa ca] [pb cb] st].
  intros [[Hc Hp]|(Hp & Hc & Hb & e & Hk & Hst)]; simpl in *; subst.
  - left. destruct i; simpl; [done|].
    by destruct (worker_step w now_b key (mkWorker pb cb) st).
  - right. destruct i; simpl.
    + unfold worker_step; simpl.
      destruct pa as [|e'|e'|e'|e'|]; try done; simpl.
      * destruct (send_raises w e'); simpl; eauto 10.
      * destruct (processed_at_raises w); simpl; [eauto 10|].
        split_and!; try done. eexists. rewrite lookup_insert_eq.
        split; [done|]. by rewrite status_with_status.
      * split_and!; try done. eexists. rewrite lookup_insert_eq.
        split; [done|]. by rewrite status_with_status.
      * eauto 10.
    + unfold worker_step; simpl.
      destruct Hb as [-> | ->]; simpl; [|eauto 10].
      rewrite Hk.
      destruct (due_and_pending now_b e) eqn:Hd; simpl; [|eauto 10].
      by apply due_and_pending_status in Hd.
Qed.

Lemma first_write_done_run w now_a now_b key (schedule : list who) sys :
  first_write_done key sys →
  first_write_done key (run w now_a now_b key schedule sys).
Proof.
  revert sys. induction schedule as [|i schedule IH]; intros sys H; [done|].
  simpl. apply IH. by apply first_write_done_step.
Qed.

Lemma first_write_done_start w now_a now_b key st :
  first_write_done key
    (run w now_a now_b key [A; A] (system_start st)).
Proof.
  unfold run, system_start, first_write_done. simpl.
  unfold worker_step, worker_start. simpl.
  destruct (store st !! key) as [e|]; simpl; [|by left].
  destruct (due_and_pending now_a e); simpl; [|by left].
  right. split_and!; eauto. eexists. rewrite lookup_insert_eq.
  split; [done|]. by rewrite status_with_status.
Qed.

(** A worker that has taken the event stays marked. *)
Lemma worker_step_claimed w now key (k : worker) st :
  claimed k = true → claimed (worker_step w now key k st).1 = true.
Proof.
  intros Hc. unfold worker_step.
  destruct (at_ k) as [|e|e|e|e|]; simpl; try done.
  - destruct (store st !! key) as [e|]; [|done].
    by destruct (due_and_pending now e).
  - by destruct (send_raises w e).
  - by destruct (processed_at_raises w).
Qed.

Lemma system_step_claimed w now_a now_b key sys (i : who) :
  (claimed (worker_a sys) = true →
   claimed (worker_a (system_step w now_a now_b key sys i)) = true) ∧
  (claimed (worker_b sys) = true →
   claimed (worker_b (system_step w now_a now_b key sys i)) = true).
Proof.
  destruct i; simpl.
  - pose proof (worker_step_claimed w now_a key (worker_a sys) (shared sys)).
    by destruct (worker_step w now_a key (worker_a sys) (shared sys)).
  - pose proof (worker_step_claimed w now_b key (worker_b sys) (shared sys)).
    by destruct (worker_step w now_b key (worker_b sys) (shared sys)).
Qed.

Lemma run_claimed w now_a now_b key (schedule : list who) sys :
  claimed (worker_a sys) = true → claimed (worker_b sys) = true →
  claimed (worker_a (run w now_a now_b key schedule sys)) = true ∧
  claimed (worker_b (run w now_a now_b key schedule sys)) = true.
Proof.
  revert sys. induction schedule as [|i schedule IH]; intros sys Ha Hb; [done|].
  simpl. destruct (system_step_claimed w now_a now_b key sys i) as [Ha' Hb'].
  apply IH; eauto.
Qed.

(** Both workers read before either writes: both pass the test. *)
Lemma both_read_first w now_a now_b key st :
  takes now_a key st = true → takes now_b key st = true →
  let sys := run w now_a now_b key [A; B] (system_start st) in
  claimed (worker_a sys) = true ∧ claimed (worker_b sys) = true.
Proof.
  unfold takes. destruct (store st !! key) as [e|] eqn:Hk; [|done].
  intros Ha Hb. unfold run, system_start, worker_start. simpl.
  unfold worker_step. simpl. rewrite Hk, Ha. simpl. by rewrite Hk, Hb.
Qed.

(** C1, as the code has it.  The test of the status and the write of
    "processing" are two commands.  When the first worker's read and write
    both come before any step of the second worker, the two workers never
    both take the event, however their later steps interleave; a worker
    that runs alone does what one pass of the loop body does, after which
    the event is not taken again.  When both workers read a due and pending
    event before either writes, both take it, however their later steps
    interleave. *)
Theorem C1_claim_depends_on_interleaving w (now_a now_b : datetime) key
    (schedule : list who) st :
  let sys := run w now_a now_b key (A :: A :: schedule) (system_start st) in
  let sys' := run w now_a now_b key (A :: B :: schedule) (system_start st) in
  ¬ (claimed (worker_a sys) = true ∧ claimed (worker_b sys) = true) ∧
  (run_alone w now_a key st).2 = process_event w now_a key st ∧
  (takes now_a key st = true →
   takes now_b key (process_event w now_a key st) = false) ∧
  (takes now_a key st = true → takes now_b key st = true →
   claimed (worker_a sys') = true ∧ claimed (worker_b sys') = true).
Proof.
  cbn zeta. split_and!.
  - pose proof (first_write_done_run w now_a now_b key schedule _
                  (first_write_done_start w now_a now_b key st)) as Hinv.
    change (run w now_a now_b key (A :: A :: schedule) (system_start st))
      with (run w now_a now_b key schedule
              (run w now_a now_b key [A; A] (system_start st))).
    destruct Hinv as [[Hc _]|(_ & Hc & _)]; rewrite Hc; by intros [??].
  - apply run_alone_process_event.
  - unfold takes at 1. destruct (store st !! key) as [e|] eqn:Hk; [|done].
    intros Hd. unfold takes.
    rewrite (process_event_taken w now_a key st e) by done.
    destruct (due_and_pending now_b _) eqn:Hd'; [|done].
    apply due_and_pending_status in Hd'. rewrite status_with_status in Hd'.
    by destruct (send_raises w _), (processed_at_raises w).
  - intros Ha Hb.
    change (run w now_a now_b key (A :: B :: schedule) (system_start st))
      with (run w now_a now_b key schedule
              (run w now_a now_b key [A; B] (system_start st))).
    destruct (both_read_first w now_a now_b key st Ha Hb) as [Ha' Hb'].
    by apply run_claimed.
Qed.

(** C1 fails as stated: both workers read the pending event before either
    writes, and both enter the [try] block.  In this repository each of
    them then fails to send and stores "failed". *)
Lemma C1_counterexample :
  let event :=
    mkRenderEvent "1" "video_render" "{}" 5000000 PENDING "{}" 1000000
      1000000 in
  let st := mkState {["event:1" := event]} [] in
  let sys :=
    run repository_world 9000000 9000000 "event:1" [A; B; A; B; A; B; A; B]
      (system_start st) in
  claimed (worker_a sys) = true ∧
  claimed (worker_b sys) = true ∧
  at_ (worker_a sys) = Finished ∧
  at_ (worker_b sys) = Finished ∧
  sent_for "1" (shared sys) = 0%nat ∧
  status <$> store (shared sys) !! "event:1" = Some FAILED.
Proof. cbn zeta. split_and!; by vm_compute. Qed.

(** C3, as the code has it.  The dispatcher keeps no attempt count and has
    no retry: when the send raises for an event it has taken, the event is
    stored as FAILED at once, with every other field as it was (its
    [scheduled_time] included), and nothing is sent; from then on no run of
    the loop body for that key, at any time and whatever the send would do,
    takes the event or changes anything.  The dispatcher stores FAILED only
    for an event it took in this pass and for which the [try] block raised,
    and it never stores SCHEDULED. *)
Theorem C3_failed_on_first_error w (now : datetime) key st e :
  store st !! key = Some e →
  let st' := process_event w now key st in
  (due_and_pending now e = true →
   send_raises w (with_status PROCESSING e) = true →
   store st' !! key = Some (with_status FAILED e) ∧ topic st' = topic st ∧
   ∀ w' (now' : datetime),
     takes now' key st' = false ∧ process_event w' now' key st' = st') ∧
  (∀ e', store st' !! key = Some e' → status e' = FAILED →
     status e ≠ FAILED →
     due_and_pending now e = true ∧
     (send_raises w (with_status PROCESSING e) = true
      ∨ processed_at_raises w = true)) ∧
  (∀ e', store st' !! key = Some e' → status e' = SCHEDULED → e' = e).
Proof.
  intros Hk. cbn zeta. split_and!.
  - intros Hd Hs.
    assert (store (process_event w now key st) !! key
            = Some (with_status FAILED e)) as Hfailed.
    { by rewrite (process_event_taken w now key st e), Hs. }
    split_and!.
    + done.
    + unfold process_event. by rewrite Hk, Hd, Hs.
    + intros w' now'.
      assert (status (with_status FAILED e) ≠ PENDING) as Hnp
        by (by rewrite status_with_status).
      split.
      * unfold takes. rewrite Hfailed.
        destruct (due_and_pending now' _) eqn:Hd'; [|done].
        by apply due_and_pending_status in Hd'.
      * by apply (process_event_not_pending w' now' key _ _ Hfailed).
  - intros e' Hk' Hf Hnf.
    destruct (due_and_pending now e) eqn:Hd.
    + split; [done|]. rewrite (process_event_taken w now key st e) in Hk'
        by done.
      destruct (send_raises w _); [by left|].
      destruct (processed_at_raises w); [by right|].
      injection Hk' as <-. by rewrite status_with_status in Hf.
    + unfold process_event in Hk'. rewrite Hk, Hd in Hk'. congruence.
  - intros e' Hk' Hs.
    destruct (due_and_pending now e) eqn:Hd.
    + rewrite (process_event_taken w now key st e) in Hk' by done.
      injection Hk' as <-. rewrite status_with_status in Hs.
      by destruct (send_raises w _), (processed_at_raises w).
    + unfold process_event in Hk'. rewrite Hk, Hd in Hk'. congruence.
Qed.

(** C3 fails as stated: the first failed send leaves the event FAILED, not
    SCHEDULED, and a later run of the loop body whose send would succeed
    does not try again. *)
Lemma C3_counterexample :
  let event :=
    mkRenderEvent "1" "video_render" "{}" 5000000 PENDING "{}" 1000000
      1000000 in
  let st := mkState {["event:1" := event]} [] in
  let st' := process_event repository_world 9000000 "event:1" st in
  status <$> store st' !! "event:1" = Some FAILED ∧
  status <$> store st' !! "event:1" ≠ Some SCHEDULED ∧
  process_event (mkWorld (λ _, false) false) 9999999 "event:1" st' = st'.
Proof. cbn zeta. split_and!; by vm_compute. Qed.

End dispatcher_claims.

(** ** Terminal states *)

Section terminal_states.
Import SchedulerService VideoRenderService.

Lemma run_call_status (timestamp : request_datetime → Z) (c : api_call)
    (event_id : string) (db : redis) :
  stored_status event_id (run_call timestamp c db) = stored_status event_id db
  ∨ Router.get_event event_id (run_call timestamp c db)
    = inl (HTTP404 "Event not found").
Proof.
  destruct c as [now i created updated event_type content scheduled_time
                   metadata|i status utcnow|event_ids].
  - left. by rewrite run_call_no_write.
  - left. by rewrite run_call_no_write.
  - simpl. unfold stored_status, Router.get_event, get_event.
    rewrite hgetall_remove.
    destruct (decide (event_id ∈ event_ids)); [by right|by left].
Qed.

(** C4, as the code has it.  No operation that begins once an event is
    COMPLETED or FAILED changes its status.  A call of the scheduler API
    leaves the stored status of every event as it is, unless it is the
    cleanup that removes the event; a status update in particular writes
    nothing.  Runs of the dispatcher's loop body, for any keys and at any
    times, leave an event that is COMPLETED or FAILED as it is, and a worker
    that reads such an event finishes without a write. *)
Theorem C4_terminal_status_kept :
  (∀ (timestamp : request_datetime → Z) (c : api_call) (event_id : string)
     (db : redis),
     stored_status event_id (run_call timestamp c db)
     = stored_status event_id db
     ∨ Router.get_event event_id (run_call timestamp c db)
       = inl (HTTP404 "Event not found")) ∧
  (∀ (w : world) (runs : list (datetime * string)) (st : state)
     (key : string) (e : RenderEvent),
     store st !! key = Some e → status e = COMPLETED ∨ status e = FAILED →
     store (foldl (λ s r, process_event w r.1 r.2 s) st runs) !! key
     = Some e) ∧
  (∀ (w : world) (now : datetime) (key : string) (k : worker) (st : state)
     (e : RenderEvent),
     at_ k = AtGet →
     store st !! key = Some e → status e = COMPLETED ∨ status e = FAILED →
     worker_step w now key k st = (mkWorker Finished (claimed k), st)).
Proof.
  split_and!.
  - apply run_call_status.
  - intros w runs st key e Hk Hst. apply process_runs_not_pending; [done|].
    by destruct Hst as [-> | ->].
  - intros w now key k st e Hat Hk Hst. unfold worker_step.
    rewrite Hat, Hk.
    destruct (due_and_pending now e) eqn:Hd; [|done].
    apply due_and_pending_status in Hd. rewrite Hd in Hst.
    by destruct Hst.
Qed.

(** C4 fails as stated: a worker that read the event while it was pending
    writes "processing" over the "failed" that the other worker has stored
    in between. *)
Lemma C4_counterexample :
  let event :=
    mkRenderEvent "1" "video_render" "{}" 5000000 PENDING "{}" 1000000
      1000000 in
  let st := mkState {["event:1" := event]} [] in
  let sys :=
    run repository_world 9000000 9000000 "event:1" [A; B; A; A; A]
      (system_start st) in
  let sys' := system_step repository_world 9000000 9000000 "event:1" sys B in
  at_ (worker_a sys) = Finished ∧
  status <$> store (shared sys) !! "event:1" = Some FAILED ∧
  status <$> store (shared sys') !! "event:1" = Some PROCESSING.
Proof. cbn zeta. split_and!; by vm_compute. Qed.

End terminal_states.

(** ** The theorems at concrete inputs *)

Lemma C5_witness :
  Router.schedule_event timestamp_utc 1800000000000000 "e1" 1800000000000000
    1800000000000000 "video_render" [] (Aware 1577836800000000 0) []
    redis_empty
  = (redis_empty, inl TypeError) ∧
  Router.schedule_event timestamp_utc 1800000000000000 "e1" 1800000000000000
    1800000000000000 "video_render" [] (Naive 1577836800000000) []
    redis_empty
  = (redis_empty, inl (ValueError "A data agendada deve ser futura")).
Proof.
  destruct (C5_past_schedule_rejection timestamp_utc 1800000000000000 "e1"
              1800000000000000 1800000000000000 "video_render" [] []
              redis_empty) as [Hnaive Haware].
  split; [apply Haware|apply Hnaive; lia].
Defined.

Lemma C6_witness :
  1800000000000000 < 32472144000000000 ∧
  Router.schedule_event timestamp_utc 1800000000000000 "e1" 1800000000000000
    1800000000000000 "video_render" [] (Naive 32472144000000000) []
    redis_empty
  = (redis_empty, inl (HTTP500 DataError)).
Proof.
  split; [lia|].
  apply (C6_valid_schedule_answers_500 timestamp_utc 1800000000000000 "e1"
           1800000000000000 1800000000000000 "video_render" [] []
           32472144000000000 redis_empty).
  lia.
Defined.

Lemma C9_witness :
  let db :=
    hset (SchedulerService.job_key "e1")
      [("event_id", "e1"); ("status", "scheduled");
       ("updated_at", "2026-01-01T00:00:00")] redis_empty in
  exists_ (SchedulerService.job_key "e1") db = true ∧
  SchedulerService.update_event_status "e1" COMPLETED 1800000000000000 db
  = (db, inl AttributeError) ∧
  Router.update_event_status "e1" COMPLETED 1800000000000000 db
  = (db, inl AttributeError) ∧
  stored_status "e1" db = Some "scheduled".
Proof.
  cbn zeta.
  assert (exists_ (SchedulerService.job_key "e1")
            (hset (SchedulerService.job_key "e1")
               [("event_id", "e1"); ("status", "scheduled");
                ("updated_at", "2026-01-01T00:00:00")] redis_empty) = true)
    as Hex by (by vm_compute).
  destruct (C9_status_update_raises "e1" COMPLETED 1800000000000000 _ Hex)
    as [Hservice Hroute].
  split_and!; [exact Hex|exact Hservice|exact Hroute|by vm_compute].
Defined.

Lemma C2_witness :
  let db :=
    zadd "e1" 5000000
      (hset (SchedulerService.job_key "e1")
         [("event_id", "e1"); ("status", "scheduled")]
         (hset (SchedulerService.job_key "e2")
            [("event_id", "e2"); ("status", "completed")] redis_empty)) in
  index_iff_scheduled db ∧
  index_iff_scheduled
    (run_call timestamp_utc (PutStatus "e1" COMPLETED 2000000) db) ∧
  index_iff_scheduled (run_call timestamp_utc (DeleteCleanup ["e1"]) db).
Proof.
  cbn zeta.
  assert (index_iff_scheduled
            (zadd "e1" 5000000
               (hset (SchedulerService.job_key "e1")
                  [("event_id", "e1"); ("status", "scheduled")]
                  (hset (SchedulerService.job_key "e2")
                     [("event_id", "e2"); ("status", "completed")]
                     redis_empty)))) as Hinv.
  { intros event_id Hsome.
    destruct (decide (event_id = "e1")) as [->|Hne1].
    { split; intros _; [by vm_compute|]. exists 5000000. by vm_compute. }
    destruct (decide (event_id = "e2")) as [->|Hne2].
    { split.
      - intros [score Hscore]. by vm_compute in Hscore.
      - intros Hst. by vm_compute in Hst. }
    exfalso. unfold SchedulerService.get_event, hgetall, zadd, hset in Hsome.
    simpl in Hsome.
    rewrite !lookup_insert_ne in Hsome
      by (intros Heq%job_key_inj; congruence).
    rewrite lookup_empty in Hsome. simpl in Hsome.
    rewrite decide_True in Hsome by done. by destruct Hsome. }
  destruct (C2_index_iff_scheduled timestamp_utc) as (_ & Hkeep & _).
  split_and!; [exact Hinv|by apply Hkeep|by apply Hkeep].
Defined.

Lemma C3_witness :
  let event :=
    mkRenderEvent "1" "video_render" "{}" 5000000 PENDING "{}" 1000000
      1000000 in
  let st := VideoRenderService.mkState {["event:1" := event]} [] in
  let w := VideoRenderService.repository_world in
  let st' := VideoRenderService.process_event w 9000000 "event:1" st in
  VideoRenderService.store st !! "event:1" = Some event ∧
  VideoRenderService.store st' !! "event:1" = Some (with_status FAILED event)
  ∧ VideoRenderService.topic st' = []
  ∧ VideoRenderService.process_event w 9999999 "event:1" st' = st'.
Proof.
  cbn zeta.
  pose (event := mkRenderEvent "1" "video_render" "{}" 5000000 PENDING "{}"
                   1000000 1000000).
  pose (st := VideoRenderService.mkState {["event:1" := event]} []).
  assert (VideoRenderService.store st !! "event:1" = Some event) as Hk
    by (by vm_compute).
  split; [exact Hk|].
  destruct (proj1 (C3_failed_on_first_error
                     VideoRenderService.repository_world 9000000
                     "event:1" st event Hk))
    as (Hstore & Htopic & Hlater); [by vm_compute|by vm_compute|].
  split_and!; [exact Hstore|exact Htopic|].
  exact (proj2 (Hlater VideoRenderService.repository_world 9999999)).
Defined.

(* ===================================================================== *)
(** * Further properties of the scheduler *)
(* ===================================================================== *)

Section due_more.
Import SchedulerService.
Implicit Types (db : redis) (event_id : string).

Global Instance zset_le_antisymm : AntiSymm (=) zset_le.
Proof.
  intros [m1 s1] [m2 s2] [H1|[-> H1]]%zset_le_iff [H2|[? H2]]%zset_le_iff;
    try lia.
  f_equal. by apply String.leb_antisym.
Qed.

(** The order of the sorted set determines the list of its entries. *)
Lemma zset_entries_unique (q : gmap string Z) (l : list (string * Z)) :
  StronglySorted zset_le l → NoDup l →
  (∀ m s, (m, s) ∈ l ↔ q !! m = Some s) →
  zset_entries q = l.
Proof.
  intros Hsorted Hnodup Hin.
  apply (StronglySorted_unique zset_le); [apply zset_entries_sorted|done|].
  apply NoDup_Permutation; [|done|].
  - unfold zset_entries. rewrite merge_sort_Permutation.
    apply NoDup_map_to_list.
  - intros [m s]. by rewrite elem_of_zset_entries, Hin.
Qed.

Lemma zset_entries_NoDup_pairs (q : gmap string Z) : NoDup (zset_entries q).
Proof.
  unfold zset_entries. rewrite merge_sort_Permutation.
  apply NoDup_map_to_list.
Qed.

Lemma fst_filter_key {A B} (P : A → Prop) `{∀ x, Decision (P x)}
    (l : list (A * B)) :
  (filter (λ e : A * B, P e.1) l).*1 = filter P (l.*1).
Proof.
  induction l as [|[a b] l IH]; [done|].
  rewrite fmap_cons, !filter_cons. simpl.
  case_decide; [rewrite fmap_cons|]; by rewrite IH.
Qed.

Lemma zset_entries_remove (ids : list string) db :
  zset_entries (queue (remove_completed_events ids db))
  = filter (λ e : string * Z, e.1 ∉ ids) (zset_entries (queue db)).
Proof.
  apply zset_entries_unique.
  - apply StronglySorted_filter, zset_entries_sorted.
  - apply NoDup_filter, zset_entries_NoDup_pairs.
  - intros m s. rewrite list_elem_of_filter, elem_of_zset_entries.
    rewrite remove_queue_lookup. simpl. case_decide as Hin.
    + split; [by intros [? ?]|done].
    + split; [by intros [_ ?]|done].
Qed.

(** X6: after a cleanup the due query with the limit [N] returns the first
    [N] (all of them when [N] is negative) of the identifiers that the
    query without a limit returned before the cleanup and that were not
    removed, in the same order. *)
Theorem cleanup_filters_due_list (ids : list string) (min max N : Z) db :
  zrangebyscore min max 0 N (remove_completed_events ids db)
  = limit_slice 0 N
      (filter (λ event_id, event_id ∉ ids) (zrangebyscore min max 0 (-1) db)).
Proof.
  unfold zrangebyscore at 1. f_equal.
  rewrite zrangebyscore_all, zset_entries_remove.
  rewrite <- (fst_filter_key (λ event_id : string, event_id ∉ ids)).
  f_equal. rewrite !list_filter_filter. apply list_filter_iff.
  intros [m s]. simpl. tauto.
Qed.

(** In a list sorted for [R], the elements that satisfy a predicate closed
    under going down in [R] form a prefix. *)
Lemma filter_down_closed_prefix {A} (R : relation A) (P : A → Prop)
    `{∀ x, Decision (P x)} (l : list A) :
  (∀ x y, R x y → P y → P x) →
  StronglySorted R l → filter P l `prefix_of` l.
Proof.
  intros Hdown. induction 1 as [|x l Hl IH Hx]; [done|].
  rewrite filter_cons. case_decide as HPx; [by apply prefix_cons|].
  assert (Forall (λ y, ¬ P y) l) as Hnone.
  { apply Forall_forall. intros y Hy HPy.
    apply HPx, (Hdown x y); [|done]. by eapply Forall_forall in Hx. }
  replace (filter P l) with (@nil A); [apply prefix_nil|].
  clear -Hnone. induction Hnone as [|y l Hy _ IHl]; [done|].
  by rewrite filter_cons, decide_False.
Qed.

(** X7: time only adds to the end of the due list: what is due at [T1] is
    a prefix of what is due at a later [T2]. *)
Theorem due_list_grows_at_the_end (T1 T2 : Z) db :
  T1 <= T2 →
  zrangebyscore 0 T1 0 (-1) db `prefix_of` zrangebyscore 0 T2 0 (-1) db.
Proof.
  intros HT. rewrite !zrangebyscore_all.
  assert (filter (λ e : string * Z, 0 <= e.2 <= T1) (zset_entries (queue db))
          = filter (λ e : string * Z, e.2 <= T1)
              (filter (λ e : string * Z, 0 <= e.2 <= T2)
                 (zset_entries (queue db)))) as ->.
  { rewrite list_filter_filter. apply list_filter_iff. intros [m s]; simpl.
    lia. }
  destruct (filter_down_closed_prefix zset_le (λ e : string * Z, e.2 <= T1)
              (filter (λ e : string * Z, 0 <= e.2 <= T2)
                 (zset_entries (queue db)))) as [k Hk].
  - intros [m1 s1] [m2 s2] Hle%zset_le_iff; simpl. lia.
  - apply StronglySorted_filter, zset_entries_sorted.
  - exists (k.*1). rewrite Hk at 1. by rewrite fmap_app.
Qed.

End due_more.

Section cleanup_more.
Import SchedulerService.
Implicit Types (db : redis) (event_id : string).

(** The state after a cleanup depends only on which identifiers are
    listed. *)
Lemma remove_completed_events_ext (ids1 ids2 : list string) db :
  (∀ i, i ∈ ids1 ↔ i ∈ ids2) →
  remove_completed_events ids1 db = remove_completed_events ids2 db.
Proof.
  intros Hsame. apply redis_eq; apply map_eq; intros k.
  - rewrite !remove_hashes_lookup.
    assert (k ∈ job_key <$> ids1 ↔ k ∈ job_key <$> ids2) as Hk.
    { rewrite !list_elem_of_fmap. split; intros (i & -> & Hi);
        exists i; (split; [done|by apply Hsame]). }
    repeat case_decide; tauto.
  - rewrite !remove_queue_lookup. specialize (Hsame k).
    repeat case_decide; tauto.
Qed.

(** X10: one cleanup of a list is the same as cleanups of its parts one
    after the other, and neither the order of the identifiers nor their
    repetition matters. *)
Theorem cleanup_composes (ids1 ids2 : list string) db :
  remove_completed_events (ids1 ++ ids2) db
  = remove_completed_events ids2 (remove_completed_events ids1 db) ∧
  remove_completed_events (ids1 ++ ids2) db
  = remove_completed_events (ids2 ++ ids1) db ∧
  remove_completed_events (ids1 ++ ids1) db
  = remove_completed_events ids1 db.
Proof.
  split_and!.
  - apply redis_eq; apply map_eq; intros k.
    + rewrite !remove_hashes_lookup, fmap_app.
      destruct (decide (k ∈ job_key <$> ids1)) as [H1|H1],
               (decide (k ∈ job_key <$> ids2)) as [H2|H2];
        first [rewrite decide_True by (apply elem_of_app; tauto)
              |rewrite decide_False by (rewrite elem_of_app; tauto)]; done.
    + rewrite !remove_queue_lookup.
      destruct (decide (k ∈ ids1)) as [H1|H1],
               (decide (k ∈ ids2)) as [H2|H2];
        first [rewrite decide_True by (apply elem_of_app; tauto)
              |rewrite decide_False by (rewrite elem_of_app; tauto)]; done.
  - apply remove_completed_events_ext. intros i. rewrite !elem_of_app. tauto.
  - apply remove_completed_events_ext. intros i. rewrite !elem_of_app. tauto.
Qed.

End cleanup_more.

(* ===================================================================== *)
(** * Further properties of the render dispatcher *)
(* ===================================================================== *)

Section loop_body_facts.
Import VideoRenderService.
Implicit Types (w : world) (st : state) (e : RenderEvent) (key : string).

(** X14: when the assignment of [processed_at] is refused, as it is for a
    model that declares no such field, an event the loop body takes is
    stored as FAILED whether or not its message was sent, and the message
    of an event whose send did not raise is in the topic all the same. *)
Theorem taken_event_ends_failed w (now : datetime) key st e :
  processed_at_raises w = true →
  store st !! key = Some e → due_and_pending now e = true →
  store (process_event w now key st) !! key = Some (with_status FAILED e) ∧
  (send_raises w (with_status PROCESSING e) = false →
   topic (process_event w now key st) = topic st ++ [message_of e]).
Proof.
  intros Hraise Hk Hd. split.
  - rewrite (process_event_taken w now key st e) by done.
    rewrite Hraise. by destruct (send_raises w _).
  - intros Hsend. unfold process_event.
    rewrite Hk, Hd, Hsend, Hraise. simpl.
    by rewrite message_of_with_status.
Qed.

End loop_body_facts.

(* ===================================================================== *)
(** * The Redis client manager *)
(* ===================================================================== *)

Section manager_facts.
Import RedisManager.
Implicit Types (m : manager).

(** What the calls keep true: the client is the one built on the current
    pool, the gauge tells whether there is a pool, and the pool is one of
    those created so far. *)
Lemma manager_reachable_inv m :
  manager_reachable m →
  _client m = _pool m ∧
  db_connections m = match _pool m with Some _ => 1 | None => 0 end ∧
  (∀ p, _pool m = Some p → (p < pools_created m)%nat).
Proof.
  induction 1 as [|c m Hm (Hc & Hg & Hp)].
  { split_and!; try done. }
  destruct m as [pool client gauge n]; simpl in *; subst.
  destruct c; simpl; unfold get_client, initialize, close; simpl.
  - destruct pool as [p|]; simpl; split_and!; try done.
    intros p [= <-]. lia.
  - destruct pool as [p|]; simpl; split_and!; try done.
    intros p [= <-]. lia.
  - destruct pool as [p|]; simpl; split_and!; done.
Qed.

(** X16: in every state of the manager the calls can reach, [get_client]
    returns a client, never [None]; a second call returns the same client
    and changes nothing; and the gauge of connections then reads 1. *)
Theorem get_client_returns_the_one_client m :
  manager_reachable m →
  ∃ client,
    (get_client m).1 = Some client ∧
    get_client (get_client m).2 = (Some client, (get_client m).2) ∧
    db_connections (get_client m).2 = 1.
Proof.
  intros (Hc & Hg & _)%manager_reachable_inv.
  destruct m as [pool client gauge n]; simpl in *; subst.
  unfold get_client, initialize; simpl.
  destruct pool as [p|]; simpl; eauto.
Qed.

(** X17: [close] leaves neither pool nor client and sets the gauge to 0;
    the client handed out afterwards is a new one, so a service that kept
    the client it was given before the close goes on using the closed
    one. *)
Theorem close_makes_cached_client_stale m :
  manager_reachable m →
  let '(old, cached, m1) := _get_redis None m in
  let m2 := close m1 in
  _pool m2 = None ∧ _client m2 = None ∧ db_connections m2 = 0 ∧
  (_get_redis cached m2).1.1 = old ∧
  is_Some (_get_redis None m2).1.1 ∧
  (_get_redis None m2).1.1 ≠ old.
Proof.
  intros (Hc & Hg & Hp)%manager_reachable_inv.
  destruct m as [pool client gauge n]; simpl in *; subst.
  unfold _get_redis, get_client, initialize, close; simpl.
  destruct pool as [p|]; simpl; split_and!; try done; eauto.
  - intros [= Heq]. specialize (Hp p eq_refl). lia.
  - intros [= Heq]. lia.
Qed.

End manager_facts.

(* ===================================================================== *)
(** * The validators of CEP and CNPJ *)
(* ===================================================================== *)

Section validator_facts.
Context {char : Type} (isdigit : char → bool).
Implicit Types (v : list char).

Lemma only_digits_Forall v :
  Forall (λ c, isdigit c = true) (only_digits isdigit v).
Proof.
  apply Forall_forall. intros c Hc%list_elem_of_In.
  by apply filter_In in Hc as [_ Hc].
Qed.

Lemma only_digits_idemp v :
  only_digits isdigit (only_digits isdigit v) = only_digits isdigit v.
Proof.
  unfold only_digits. induction v as [|c v IH]; [done|]. simpl.
  destruct (isdigit c) eqn:Hc; [|done]. simpl. by rewrite Hc, IH.
Qed.

Lemma only_digits_app v1 v2 :
  only_digits isdigit (v1 ++ v2)
  = only_digits isdigit v1 ++ only_digits isdigit v2.
Proof. apply List.filter_app. Qed.

(** X18: a CEP that [Address.validate_cep] accepts comes back as the digits
    of the input in their order: eight of them, nothing else; validating
    the result again returns it unchanged; and [ValidationRequest]'s
    validator accepts the same inputs with the same result. *)
Theorem validate_cep_normal_form v (cep : list char) :
  Address_validate_cep isdigit v = inr cep →
  cep = only_digits isdigit v ∧
  length cep = 8%nat ∧
  Forall (λ c, isdigit c = true) cep ∧
  Address_validate_cep isdigit cep = inr cep ∧
  ValidationRequest_validate_cep isdigit v = inr cep.
Proof.
  unfold Address_validate_cep, ValidationRequest_validate_cep.
  case_decide as Hlen; [done|]. intros [= <-].
  split_and!; try done.
  - apply only_digits_Forall.
  - rewrite only_digits_idemp, decide_False; [done|].
    rewrite Hlen. by intros Hn.
Qed.

(** X19: a CNPJ that [CustomerValidationRequest.validate_cnpj] accepts comes
    back as the digits of the input in their order: fourteen of them,
    nothing else; validating the result again returns it unchanged; and
    [ValidationRequest]'s validator accepts the same inputs with the same
    result. *)
Theorem validate_cnpj_normal_form v (cnpj : list char) :
  CustomerValidationRequest_validate_cnpj isdigit v = inr cnpj →
  cnpj = only_digits isdigit v ∧
  length cnpj = 14%nat ∧
  Forall (λ c, isdigit c = true) cnpj ∧
  CustomerValidationRequest_validate_cnpj isdigit cnpj = inr cnpj ∧
  ValidationRequest_validate_cnpj isdigit v = inr cnpj.
Proof.
  unfold CustomerValidationRequest_validate_cnpj,
    ValidationRequest_validate_cnpj.
  case_decide as Hlen; [done|]. intros [= <-].
  split_and!; try done.
  - apply only_digits_Forall.
  - rewrite only_digits_idemp, decide_False; [done|].
    rewrite Hlen. by intros Hn.
Qed.

(** X20: punctuation does not matter to the validators: a code point that
    is not a digit can be put anywhere into a CEP or a CNPJ, or taken out,
    without changing the answer. *)
Theorem validators_ignore_non_digits v1 v2 (c : char) :
  isdigit c = false →
  Address_validate_cep isdigit (v1 ++ c :: v2)
  = Address_validate_cep isdigit (v1 ++ v2) ∧
  CustomerValidationRequest_validate_cnpj isdigit (v1 ++ c :: v2)
  = CustomerValidationRequest_validate_cnpj isdigit (v1 ++ v2) ∧
  ValidationRequest_validate_cep isdigit (v1 ++ c :: v2)
  = ValidationRequest_validate_cep isdigit (v1 ++ v2) ∧
  ValidationRequest_validate_cnpj isdigit (v1 ++ c :: v2)
  = ValidationRequest_validate_cnpj isdigit (v1 ++ v2).
Proof.
  intros Hc.
  assert (only_digits isdigit (v1 ++ c :: v2)
          = only_digits isdigit (v1 ++ v2)) as Heq.
  { rewrite !only_digits_app. f_equal. unfold only_digits. simpl.
    by rewrite Hc. }
  unfold Address_validate_cep, CustomerValidationRequest_validate_cnpj,
    ValidationRequest_validate_cep, ValidationRequest_validate_cnpj.
  by rewrite Heq.
Qed.

End validator_facts.

(* ===================================================================== *)
(** * Metrics *)
(* ===================================================================== *)

Section metrics_facts.
Import Metrics.
Implicit Types (m : metrics) (db : redis).

Lemma api_requests_total_inc (method endpoint : string) (status : Z) m :
  api_requests_total (inc_api_request method endpoint status m)
  = S (api_requests_total m).
Proof.
  unfold api_requests_total, inc_api_request. simpl.
  destruct (api_requests m !! (method, endpoint, status)) as [n|] eqn:Hl; simpl.
  - rewrite <- insert_delete_eq.
    rewrite map_to_list_insert by apply lookup_delete_eq.
    rewrite <- (map_to_list_delete (api_requests m) _ n Hl).
    by rewrite !fmap_cons.
  - rewrite map_to_list_insert by done. by rewrite fmap_cons.
Qed.

Lemma run_service_call_total (timestamp : request_datetime → Z)
    (c : service_call) (dm : redis * metrics) :
  api_requests_total (run_service_call timestamp c dm).2
  = ((if call_counted c dm.1 then 1 else 0) + api_requests_total dm.2)%nat.
Proof.
  destruct dm as [db m].
  destruct c as [i created updated request|i|i status utcnow|limit now|ids];
    cbn [run_service_call call_counted fst snd].
  - unfold schedule_event. by rewrite schedule_event_refused.
  - unfold get_event.
    destruct (SchedulerService.get_event i db) as [e|]; simpl.
    + apply api_requests_total_inc.
    + done.
  - unfold update_event_status.
    destruct (exists_ (SchedulerService.job_key i) db) eqn:Hex.
    + by rewrite update_event_status_raises.
    + by rewrite update_event_status_not_found.
  - unfold get_pending_events. simpl.
    destruct (zrangebyscore 0 now 0 limit db) as [|j js]; simpl; [done|].
    apply api_requests_total_inc.
  - apply api_requests_total_inc.
Qed.

(** X21: over any sequence of calls of the scheduler service, the counter
    [api_requests], summed over its labels, grows by the number of reads
    that found a record, of pending queries with at least one due
    identifier, and of cleanups.  A call that schedules an event and a
    status update are never counted: each raises, or finds no record,
    before it reaches its [inc_api_request]. *)
Theorem service_counts_served_calls (timestamp : request_datetime → Z)
    (cs : list service_call) (dm : redis * metrics) :
  api_requests_total
    (foldl (λ s c, run_service_call timestamp c s) dm cs).2
  = (api_requests_total dm.2 + counted_calls timestamp cs dm)%nat.
Proof.
  revert dm. induction cs as [|c cs IH]; intros dm; simpl; [lia|].
  rewrite IH, run_service_call_total. lia.
Qed.

Lemma active_inc_dec (endpoint e : string) m :
  active e (dec_active_requests endpoint (inc_active_requests endpoint m))
  = active e m.
Proof.
  unfold active, dec_active_requests, inc_active_requests. simpl.
  destruct (decide (endpoint = e)) as [->|Hne].
  - rewrite !lookup_insert_eq. simpl. lia.
  - by rewrite !lookup_insert_ne.
Qed.

(** X22: the middleware leaves the gauge [active_requests] as it found it,
    for every endpoint, whether the application returns a response or
    raises, provided the application itself does not write to that
    gauge. *)
Theorem dispatch_balances_active_requests (method endpoint : string)
    (call_next : metrics → outcome * metrics) m (e : string) :
  (∀ m0, active_requests (call_next m0).2 = active_requests m0) →
  active e (dispatch method endpoint call_next m).2 = active e m.
Proof.
  intros Hnext. unfold dispatch.
  pose proof (Hnext (inc_active_requests endpoint m)) as Hg.
  destruct (call_next (inc_active_requests endpoint m)) as [result m2].
  simpl in Hg. rewrite <- (active_inc_dec endpoint e m).
  unfold active, dec_active_requests. simpl.
  assert (∀ m3, active_requests m3 = active_requests m2 →
            default 0 (<[endpoint:=default 0 (active_requests m3 !! endpoint)
                                   - 1]> (active_requests m3) !! e)
            = default 0 (<[endpoint:=default 0
                                       (active_requests
                                          (inc_active_requests endpoint m)
                                        !! endpoint) - 1]>
                           (active_requests (inc_active_requests endpoint m))
                         !! e)) as Hsame.
  { intros m3 ->. by rewrite Hg. }
  apply Hsame. destruct result as [status|ty]; [|done].
  by case_bool_decide.
Qed.

End metrics_facts.

(* ===================================================================== *)
(** * The further theorems at concrete inputs *)
(* ===================================================================== *)

Lemma due_list_grows_at_the_end_witness :
  let db := zadd "e2" 7000000 (zadd "e1" 5000000 redis_empty) in
  6000000 <= 9000000 ∧
  zrangebyscore 0 6000000 0 (-1) db
    `prefix_of` zrangebyscore 0 9000000 0 (-1) db.
Proof.
  cbn zeta. split; [lia|].
  apply due_list_grows_at_the_end. lia.
Defined.

Lemma taken_event_ends_failed_witness :
  let event :=
    mkRenderEvent "1" "video_render" "{}" 5000000 PENDING "{}" 1000000
      1000000 in
  let st := VideoRenderService.mkState {["event:1" := event]} [] in
  let w := VideoRenderService.mkWorld (λ _, false) true in
  let st' := VideoRenderService.process_event w 9000000 "event:1" st in
  VideoRenderService.processed_at_raises w = true ∧
  VideoRenderService.store st !! "event:1" = Some event ∧
  VideoRenderService.due_and_pending 9000000 event = true ∧
  VideoRenderService.store st' !! "event:1" = Some (with_status FAILED event).
Proof.
  cbn zeta. split_and!; [by vm_compute|by vm_compute|by vm_compute|].
  refine (proj1 (taken_event_ends_failed
                   (VideoRenderService.mkWorld (λ _, false) true) 9000000
                   "event:1" _ _ _ _ _)); by vm_compute.
Defined.

Lemma get_client_returns_the_one_client_witness :
  RedisManager.manager_reachable (RedisManager.close RedisManager.manager_start)
  ∧ ∃ client,
      (RedisManager.get_client
         (RedisManager.close RedisManager.manager_start)).1 = Some client.
Proof.
  assert (RedisManager.manager_reachable
            (RedisManager.close RedisManager.manager_start)) as Hr.
  { apply (RedisManager.manager_reachable_call RedisManager.Close),
      RedisManager.manager_reachable_start. }
  split; [exact Hr|].
  destruct (get_client_returns_the_one_client _ Hr) as (client & Hc & _).
  exists client. exact Hc.
Defined.

Lemma close_makes_cached_client_stale_witness :
  RedisManager.manager_reachable RedisManager.manager_start ∧
  let '(old, cached, m1) :=
    RedisManager._get_redis None RedisManager.manager_start in
  let m2 := RedisManager.close m1 in
  RedisManager._pool m2 = None ∧ RedisManager._client m2 = None ∧
  RedisManager.db_connections m2 = 0 ∧
  (RedisManager._get_redis cached m2).1.1 = old ∧
  is_Some (RedisManager._get_redis None m2).1.1 ∧
  (RedisManager._get_redis None m2).1.1 ≠ old.
Proof.
  split; [exact RedisManager.manager_reachable_start|].
  exact (close_makes_cached_client_stale RedisManager.manager_start
           RedisManager.manager_reachable_start).
Defined.

Lemma validate_cep_normal_form_witness :
  let v := Strings.String.list_ascii_of_string "01310-100" in
  let cep := Strings.String.list_ascii_of_string "01310100" in
  Address_validate_cep ascii_isdigit v = inr cep ∧
  length cep = 8%nat ∧
  ValidationRequest_validate_cep ascii_isdigit v = inr cep.
Proof.
  cbn zeta.
  assert (Address_validate_cep ascii_isdigit (Strings.String.list_ascii_of_string "01310-100")
          = inr (Strings.String.list_ascii_of_string "01310100")) as Hv by (by vm_compute).
  split; [exact Hv|].
  destruct (validate_cep_normal_form ascii_isdigit _ _ Hv)
    as (_ & Hlen & _ & _ & Hsame).
  split; [exact Hlen|exact Hsame].
Defined.

Lemma validate_cnpj_normal_form_witness :
  let v := Strings.String.list_ascii_of_string "11.222.333/0001-81" in
  let cnpj := Strings.String.list_ascii_of_string "11222333000181" in
  CustomerValidationRequest_validate_cnpj ascii_isdigit v = inr cnpj ∧
  length cnpj = 14%nat ∧
  ValidationRequest_validate_cnpj ascii_isdigit v = inr cnpj.
Proof.
  cbn zeta.
  assert (CustomerValidationRequest_validate_cnpj ascii_isdigit
            (Strings.String.list_ascii_of_string "11.222.333/0001-81")
          = inr (Strings.String.list_ascii_of_string "11222333000181")) as Hv
    by (by vm_compute).
  split; [exact Hv|].
  destruct (validate_cnpj_normal_form ascii_isdigit _ _ Hv)
    as (_ & Hlen & _ & _ & Hsame).
  split; [exact Hlen|exact Hsame].
Defined.

(** Code point 45 is the hyphen. *)
Lemma validators_ignore_non_digits_witness :
  ascii_isdigit (Ascii.ascii_of_nat 45) = false ∧
  Address_validate_cep ascii_isdigit
    (Strings.String.list_ascii_of_string "01310" ++ (Ascii.ascii_of_nat 45) :: Strings.String.list_ascii_of_string "100")
  = Address_validate_cep ascii_isdigit
      (Strings.String.list_ascii_of_string "01310" ++ Strings.String.list_ascii_of_string "100").
Proof.
  assert (ascii_isdigit (Ascii.ascii_of_nat 45) = false) as Hc by (by vm_compute).
  split; [exact Hc|].
  exact (proj1 (validators_ignore_non_digits ascii_isdigit
                  (Strings.String.list_ascii_of_string "01310") (Strings.String.list_ascii_of_string "100")
                  (Ascii.ascii_of_nat 45) Hc)).
Defined.

Lemma dispatch_balances_active_requests_witness :
  let call_next := λ m : Metrics.metrics, (Metrics.Responded 404, m) in
  (∀ m0, Metrics.active_requests (call_next m0).2 = Metrics.active_requests m0)
  ∧ Metrics.active "/api/v1/scheduler/events/e1"
      (Metrics.dispatch "GET" "/api/v1/scheduler/events/e1" call_next
         Metrics.metrics_start).2
    = Metrics.active "/api/v1/scheduler/events/e1" Metrics.metrics_start.
Proof.
  cbn zeta.
  assert (∀ m0 : Metrics.metrics,
            Metrics.active_requests (Metrics.Responded 404, m0).2
            = Metrics.active_requests m0) as Hnext by reflexivity.
  split; [exact Hnext|].
  exact (dispatch_balances_active_requests "GET" "/api/v1/scheduler/events/e1"
           (λ m : Metrics.metrics, (Metrics.Responded 404, m))
           Metrics.metrics_start "/api/v1/scheduler/events/e1" Hnext).
Defined.
